(** * Stall numbering: [getNextStallNumbers] of [src/data/stalls.ts]

    A shallow embedding of the stall-number allocator and of the part of
    the JavaScript run time it calls ([String.prototype.trim],
    [String.prototype.toLowerCase], [RegExp.prototype.exec], [Number],
    [Math.max], [+] on numbers and [Array.prototype.reduce]), followed by
    the properties the specification states about it. *)

From Stdlib Require Import ZArith NArith List Bool Lia String Ascii Permutation.
Import ListNotations.

Local Open Scope Z_scope.

(** ** JavaScript values used by the allocator *)

Module JS.

(** A JavaScript string is a sequence of UTF-16 code units. *)
Definition jsstring := list N.

(** The code units of a literal written with Basic Latin characters. *)
Definition str (s : string) : jsstring :=
  map N_of_ascii (list_ascii_of_string s).

Fixpoint jsstring_eqb (a b : jsstring) : bool :=
  match a, b with
  | [], [] => true
  | x :: a', y :: b' => N.eqb x y && jsstring_eqb a' b'
  | _, _ => false
  end.

Fixpoint takeWhile {A} (p : A -> bool) (l : list A) : list A :=
  match l with
  | [] => []
  | x :: l' => if p x then x :: takeWhile p l' else []
  end.

Fixpoint dropWhile {A} (p : A -> bool) (l : list A) : list A :=
  match l with
  | [] => []
  | x :: l' => if p x then dropWhile p l' else l
  end.

(** WhiteSpace and LineTerminator code points of ECMAScript: the set that
    [trim] strips and that the class escape [\s] matches. *)
Definition isWhiteSpace (c : N) : bool :=
  ((9 <=? c) && (c <=? 13) || (c =? 32) || (c =? 160) || (c =? 5760)
   || (8192 <=? c) && (c <=? 8202) || (c =? 8232) || (c =? 8233)
   || (c =? 8239) || (c =? 8287) || (c =? 12288) || (c =? 65279))%N.

(** The class escape [\d]: the ten decimal digits. *)
Definition isDigit (c : N) : bool := ((48 <=? c) && (c <=? 57))%N.

Definition trimStart (s : jsstring) : jsstring := dropWhile isWhiteSpace s.
Definition trimEnd (s : jsstring) : jsstring :=
  rev (dropWhile isWhiteSpace (rev s)).

(** [String.prototype.trim] *)
Definition trim (s : jsstring) : jsstring := trimEnd (trimStart s).

(** Case mapping inside Basic Latin: only the letters A-Z and a-z move. *)
Definition isBasicLatin (c : N) : bool := (c <? 128)%N.
Definition latinToLower (c : N) : N :=
  if ((65 <=? c) && (c <=? 90))%N then (c + 32)%N else c.
Definition latinToUpper (c : N) : N :=
  if ((97 <=? c) && (c <=? 122))%N then (c - 32)%N else c.

(** [String.prototype.toLowerCase] follows the Unicode case-mapping tables
    of the engine, which are no part of the repository.  The allocator is
    verified against any mapping that agrees with the tables where the
    standard fixes them for this program: strings of Basic Latin code units
    are lowered letter by letter, and no non-empty string is mapped to the
    empty one. *)
Class UnicodeCaseMapping : Type := {
  toLowerCase : jsstring -> jsstring;
  toLowerCase_basic_latin :
    forall s, forallb isBasicLatin s = true -> toLowerCase s = map latinToLower s;
  toLowerCase_nonempty :
    forall s, s <> [] -> toLowerCase s <> []
}.

(** *** Regular expressions

    The fragment of the pattern language the two literals of the source
    need: single characters, the classes [\s] and [\d], the greedy
    quantifier [+] on a class, and a capturing group around a quantified
    class. *)

Inductive atom : Type :=
| Lit (c : N)
| Space
| Digit.

Inductive node : Type :=
| One (a : atom)
| Many1 (a : atom) (captured : bool).

Record RegExp : Type := {
  pattern : list node;
  ignoreCase : bool
}.

(** Canonicalize (without the [u] flag) upper-cases a code unit but never
    sends a code unit above 127 to one below 128, so against a Basic Latin
    pattern character only its two Basic Latin cases compare equal. *)
Definition atomMatches (i : bool) (a : atom) (c : N) : bool :=
  match a with
  | Lit p => if i then (latinToUpper c =? latinToUpper p)%N
                        && isBasicLatin c
             else (c =? p)%N
  | Space => isWhiteSpace c
  | Digit => isDigit c
  end.

(** Backtracking match of a sequence of nodes at the head of [s]: the
    number of code units consumed and the captured groups, in order.  A
    quantified class first takes the longest run and gives characters
    back one at a time while the rest of the pattern fails. *)
Fixpoint matchSeq (i : bool) (ns : list node) (s : jsstring)
  : option (nat * list jsstring) :=
  match ns with
  | [] => Some (0%nat, [])
  | One a :: ns' =>
      match s with
      | c :: s' =>
          if atomMatches i a c then
            match matchSeq i ns' s' with
            | Some (n, caps) => Some (S n, caps)
            | None => None
            end
          else None
      | [] => None
      end
  | Many1 a captured :: ns' =>
      (fix attempt (k : nat) : option (nat * list jsstring) :=
         match k with
         | O => None
         | S k' =>
             match matchSeq i ns' (skipn k s) with
             | Some (n, caps) =>
                 Some ((k + n)%nat,
                       if captured then firstn k s :: caps else caps)
             | None => attempt k'
             end
         end) (List.length (takeWhile (atomMatches i a) s))
  end.

(** [RegExp.prototype.exec] for a pattern without the [g] and [y] flags:
    the leftmost position at which the pattern matches.  The result array
    holds the matched text at index 0 and the groups after it; [None] is
    JavaScript's [null]. *)
Fixpoint exec (re : RegExp) (s : jsstring) : option (list jsstring) :=
  match matchSeq (ignoreCase re) (pattern re) s with
  | Some (n, caps) => Some (firstn n s :: caps)
  | None =>
      match s with
      | [] => None
      | _ :: s' => exec re s'
      end
  end.

(** *** Numbers

    The allocator only produces numbers that are non-negative integers or
    [+Infinity]; [Num z] is the double whose value is the integer [z].
    The numeric fields of a record, which the allocator never reads, are
    kept at this type as well. *)
Inductive number : Type :=
| Num (z : Z)
| Infinity.

(** Round a non-negative integer to the nearest double, ties to the even
    significand (53 bits), overflowing to [Infinity] from [2^1024]. *)
Definition roundToDouble (n : Z) : number :=
  if n <? 2 ^ 53 then Num n
  else
    let e := Z.log2 n - 52 in
    let q := Z.shiftr n e in
    let r := n - Z.shiftl q e in
    let half := 2 ^ (e - 1) in
    let q' := if (half <? r) || ((r =? half) && Z.odd q) then q + 1 else q in
    let v := Z.shiftl q' e in
    if 2 ^ 1024 <=? v then Infinity else Num v.

(** The mathematical value of a run of decimal digits. *)
Definition digitsValue (ds : jsstring) : Z :=
  fold_left (fun acc d => 10 * acc + (Z.of_N d - 48)) ds 0.

(** [Number(s)] for a string of decimal digits, the only strings the
    capture group [(\d+)] yields. *)
Definition Number (ds : jsstring) : number := roundToDouble (digitsValue ds).

(** [Math.max] on two numbers *)
Definition Math_max (a b : number) : number :=
  match a, b with
  | Num x, Num y => Num (Z.max x y)
  | _, _ => Infinity
  end.

(** [x + 1] *)
Definition plus1 (x : number) : number :=
  match x with
  | Num z => roundToDouble (z + 1)
  | Infinity => Infinity
  end.

(** [arr[i]] on the result array of [exec]. *)
Definition index (arr : list jsstring) (i : nat) : jsstring := nth i arr [].

End JS.

(** ** The registration form that offers the stall types *)

Module RegistrationForm.
Import JS.

(** [value.replace(/\D/g, "")]: every code unit that is no decimal digit
    is removed. *)
Definition removeNonDigits (value : jsstring) : jsstring :=
  filter isDigit value.

(** [s.slice(0, n)] for a non-negative [n]. *)
Definition sliceFromStart (n : nat) (s : jsstring) : jsstring := firstn n s.

(** [digitsOnly] of [handleChange]:
    [value.replace(/\D/g, "").slice(0, 11)]. *)
Definition digitsOnly (value : jsstring) : jsstring :=
  sliceFromStart 11 (removeNonDigits value).

(** The literal [/^09\d{9}$/]: between the anchors, the characters [0] and
    [9] and nine times the class [\d]. *)
Definition contactPattern : list node :=
  [One (Lit 48%N); One (Lit 57%N)] ++ repeat (One Digit) 9.

(** [/^09\d{9}$/.test(s)].  Without the [m] flag [^] only matches at
    position 0 and [$] only at the end of the input; the pattern between
    them consumes a fixed number of code units, so the match succeeds when
    the pattern matches at position 0 and consumes the whole string. *)
Definition testContact (s : jsstring) : bool :=
  match matchSeq false contactPattern s with
  | Some (n, _) => Nat.eqb n (List.length s)
  | None => false
  end.

(** The state [formData]: an object, read through its properties.
    [None] is JavaScript's [undefined]. *)
Definition object : Type := jsstring -> option jsstring.

(** [{ ...prev, [key]: value }] *)
Definition setProperty (prev : object) (key value : jsstring) : object :=
  fun k => if jsstring_eqb k key then Some value else prev k.

(** [{ vendor: "", contact: "", type: "", monthlyRent: "" }], the initial
    state and the state [handleReset] sets. *)
Definition emptyFormData : object :=
  fun k =>
    if existsb (jsstring_eqb k)
         [str "vendor"; str "contact"; str "type"; str "monthlyRent"]
    then Some []
    else None.

(** The updater [handleChange] passes to [setFormData] for an event whose
    target has the given [name] and [value]. *)
Definition handleChange (name value : jsstring) (prev : object) : object :=
  if jsstring_eqb name (str "contact") then
    let digitsOnly := digitsOnly value in
    setProperty prev (str "contact") digitsOnly
  else setProperty prev name value.

(** The form data [handleReset] sets. *)
Definition handleReset : object := emptyFormData.

(** The events that write [formData]. *)
Inductive event : Type :=
| Change (name value : jsstring)
| Reset.

Definition step (formData : object) (e : event) : object :=
  match e with
  | Change name value => handleChange name value formData
  | Reset => handleReset
  end.

(** The guard of [handleSubmit]: [/^09\d{9}$/.test(formData.contact)];
    [test] converts an [undefined] argument to the string ["undefined"]. *)
Definition contactAccepted (formData : object) : bool :=
  match formData (str "contact") with
  | Some contact => testContact contact
  | None => testContact (str "undefined")
  end.

End RegistrationForm.

(** ** [src/data/stalls.ts] *)

Module Stalls.
Import JS.

Inductive StallStatus : Type := current | due | overdue | vacant.

Record StallRecord : Type := {
  id : jsstring;
  dbId : number;
  name : jsstring;
  vendor : jsstring;
  contact : jsstring;
  type : jsstring;
  monthlyRent : number;
  lastPayment : jsstring;
  nextDue : jsstring;
  status : StallStatus;
  occupied : bool
}.

Definition BASE_TYPE_OPTIONS : list jsstring :=
  [ str "Vegetables"; str "Fish"; str "Meat"; str "Rice"; str "Grocery";
    str "Clothing"; str "Others" ].

Definition createInitialStalls : list StallRecord := [].

Definition formatStallDisplay (stall : StallRecord) : jsstring :=
  let vendor :=
    match vendor stall with
    | [] => str ""
    | _ :: _ => str " - " ++ Stalls.vendor stall
    end in
  name stall ++ vendor.

(** The literal [/stall-(\d+)/]. *)
Definition stallIdPattern : RegExp :=
  {| pattern := map (fun c => One (Lit c)) (str "stall-") ++ [Many1 Digit true];
     ignoreCase := false |}.

(** The literal [/Stall\s+(\d+)/i]. *)
Definition stallNamePattern : RegExp :=
  {| pattern := map (fun c => One (Lit c)) (str "Stall")
                ++ [Many1 Space false; Many1 Digit true];
     ignoreCase := true |}.

(** The object literal [{ nextIdNumber, nextNameNumber }]. *)
Record NextStallNumbers : Type := {
  nextIdNumber : number;
  nextNameNumber : number
}.

Section Allocator.
Context `{UnicodeCaseMapping}.

Definition getNextStallNumbers (stalls : list StallRecord)
    (type : option jsstring) : NextStallNumbers :=
  let nextIdNumber :=
    plus1
      (fold_left
         (fun highest stall =>
            match exec stallIdPattern (id stall) with
            | None => highest
            | Some match_ => Math_max highest (Number (index match_ 1))
            end)
         stalls (Num 0)) in
  let normalizedType :=
    match type with
    | Some t => Some (toLowerCase (trim t))
    | None => None
    end in
  let nextNameNumber :=
    plus1
      (fold_left
         (fun highest stall =>
            let mismatch :=
              match normalizedType with
              | Some wanted =>
                  let stallTypeNormalized :=
                    toLowerCase (trim (Stalls.type stall)) in
                  negb (jsstring_eqb stallTypeNormalized wanted)
              | None => false
              end in
            if mismatch then highest
            else
              match exec stallNamePattern (name stall) with
              | None => highest
              | Some match_ => Math_max highest (Number (index match_ 1))
              end)
         stalls (Num 0)) in
  {| nextIdNumber := nextIdNumber; nextNameNumber := nextNameNumber |}.

End Allocator.

(** A case mapping that is the identity outside Basic Latin, used to run
    the allocator on concrete inputs. *)
#[export] Instance basicLatinMapping : UnicodeCaseMapping := {|
  toLowerCase := map latinToLower;
  toLowerCase_basic_latin := fun s _ => eq_refl;
  toLowerCase_nonempty := fun s =>
    match s as s0 return s0 <> [] -> map latinToLower s0 <> [] with
    | [] => fun Hs => Hs
    | c :: s' => fun _ E => nil_cons (eq_sym E)
    end
|}.

(** A record with the three fields the allocator reads; the others are
    never read and are given fixed values. *)
Definition mkStall (i n t : string) : StallRecord :=
  {| id := str i; dbId := Num 0; name := str n; vendor := []; contact := [];
     type := str t; monthlyRent := Num 0; lastPayment := []; nextDue := [];
     status := vacant; occupied := false |}.

(** ** Auxiliary notions used to state the properties *)

Fixpoint collect {A B} (f : A -> option B) (l : list A) : list B :=
  match l with
  | [] => []
  | x :: l' =>
      match f x with
      | Some y => y :: collect f l'
      | None => collect f l'
      end
  end.

(** The largest element of a list of integers, 0 for the empty list. *)
Definition list_max0 (l : list Z) : Z := fold_right Z.max 0 l.

(** The text of capture group 1 of the first match of each pattern. *)
Definition idCapture (s : jsstring) : option jsstring :=
  option_map (fun m => index m 1) (exec stallIdPattern s).
Definition nameCapture (s : jsstring) : option jsstring :=
  option_map (fun m => index m 1) (exec stallNamePattern s).

(** The integer a record's [id], respectively [name], carries. *)
Definition idNumber (s : jsstring) : option Z :=
  option_map digitsValue (idCapture s).
Definition nameNumber (s : jsstring) : option Z :=
  option_map digitsValue (nameCapture s).

(** [n] lies strictly below the number [x]. *)
Definition below (n : Z) (x : number) : Prop :=
  match x with
  | Num v => n < v
  | Infinity => True
  end.

Definition fishStall : StallRecord := mkStall "stall-2" "Stall 3" "Fish".
Definition meatStall : StallRecord := mkStall "stall-7" "Stall 1" "Meat".

(** The largest integer below which every integer is a double. *)
Definition MAX_SAFE_INTEGER : Z := 2 ^ 53 - 1.

(** [l] is empty or starts with an element that fails [p]. *)
Definition headFails {A} (p : A -> bool) (l : list A) : Prop :=
  match l with
  | [] => True
  | x :: _ => p x = false
  end.

(** [s] holds [stall-<digits>] right after [pre]. *)
Definition idOccurrence (s pre ds post : jsstring) : Prop :=
  s = pre ++ str "stall-" ++ ds ++ post /\
  ds <> [] /\ forallb isDigit ds = true.

(** [ds] is the whole digit run of the leftmost [stall-<digits>] in [s]. *)
Definition firstIdOccurrence (s ds : jsstring) : Prop :=
  exists pre post,
    idOccurrence s pre ds post /\ headFails isDigit post /\
    forall pre' ds' post', idOccurrence s pre' ds' post' ->
      (List.length pre <= List.length pre')%nat.

(** [s] holds, right after [pre], the word [stall] in any mix of cases,
    then whitespace, then digits. *)
Definition nameOccurrence (s pre ds post : jsstring) : Prop :=
  exists w sp,
    s = pre ++ w ++ sp ++ ds ++ post /\
    map latinToLower w = str "stall" /\
    sp <> [] /\ forallb isWhiteSpace sp = true /\
    ds <> [] /\ forallb isDigit ds = true.

(** [ds] is the whole digit run of the leftmost such occurrence in [s]. *)
Definition firstNameOccurrence (s ds : jsstring) : Prop :=
  exists pre post,
    nameOccurrence s pre ds post /\ headFails isDigit post /\
    forall pre' ds' post', nameOccurrence s pre' ds' post' ->
      (List.length pre <= List.length pre')%nat.

(** Every integer carried by an id is a safe integer. *)
Definition idsSafe (stalls : list StallRecord) : Prop :=
  forall r n, In r stalls -> idNumber (id r) = Some n -> n <= MAX_SAFE_INTEGER.

Section Filter.
Context `{UnicodeCaseMapping}.

(** The records whose type the optional argument selects. *)
Definition passesFilter (type : option jsstring) (stall : StallRecord) : bool :=
  match type with
  | Some t =>
      jsstring_eqb (toLowerCase (trim (Stalls.type stall))) (toLowerCase (trim t))
  | None => true
  end.

(** Every integer carried by the name of a record that passes the filter
    is a safe integer. *)
Definition namesSafe (type : option jsstring) (stalls : list StallRecord)
  : Prop :=
  forall r n, In r stalls -> passesFilter type r = true ->
              nameNumber (name r) = Some n -> n <= MAX_SAFE_INTEGER.

End Filter.

(** The reading of the specification in which [stall-] must start the id. *)
Fixpoint stripPrefix (p s : jsstring) : option jsstring :=
  match p, s with
  | [], _ => Some s
  | x :: p', y :: s' => if (x =? y)%N then stripPrefix p' s' else None
  | _ :: _, [] => None
  end.

Definition prefixIdNumber (s : jsstring) : option Z :=
  match stripPrefix (str "stall-") s with
  | Some rest =>
      match takeWhile isDigit rest with
      | [] => None
      | ds => Some (digitsValue ds)
      end
  | None => None
  end.

(** The backtracking loop of a quantified class, as a function of the
    number of characters it still holds. *)
Fixpoint backtrack (rest : jsstring -> option (nat * list jsstring))
    (captured : bool) (s : jsstring) (k : nat) : option (nat * list jsstring) :=
  match k with
  | O => None
  | S k' =>
      match rest (skipn k s) with
      | Some (n, caps) =>
          Some ((k + n)%nat, if captured then firstn k s :: caps else caps)
      | None => backtrack rest captured s k'
      end
  end.

(** A literal prefix of the pattern consumes one code unit per character. *)
Definition litMatch (i : bool) (lit w : jsstring) : Prop :=
  Forall2 (fun p c => atomMatches i (Lit p) c = true) lit w.

(** The order of the numbers the allocator produces, [Infinity] on top. *)
Definition le_number (x y : number) : Prop :=
  match x, y with
  | _, Infinity => True
  | Num a, Num b => a <= b
  | Infinity, Num _ => False
  end.

(** A number produced by the rounding is a double: rounding it again
    changes nothing. *)
Definition isDouble (x : number) : Prop :=
  match x with
  | Num z => roundToDouble z = Num z
  | Infinity => True
  end.

(** The least integer that rounds to [Infinity]: half an ulp above the
    largest double. *)
Definition overflowThreshold : Z := 2 ^ 1024 - 2 ^ 970.

(** What each of the two folds computes from the captured digit runs. *)
Definition onePastHighest (f : StallRecord -> option jsstring)
    (l : list StallRecord) : number :=
  plus1 (fold_left Math_max (map Number (collect f l)) (Num 0)).

(** [stall] with the given vendor. *)
Definition withVendor (stall : StallRecord) (v : string) : StallRecord :=
  {| id := id stall; dbId := dbId stall; name := name stall; vendor := str v;
     contact := contact stall; type := Stalls.type stall;
     monthlyRent := monthlyRent stall; lastPayment := lastPayment stall;
     nextDue := nextDue stall; status := status stall;
     occupied := occupied stall |}.

(** A match of the mapped string, from the match of the string. *)
Definition mapMatch (f : N -> N) (m : option (nat * list jsstring))
  : option (nat * list jsstring) :=
  match m with
  | Some (n, caps) => Some (n, map (map f) caps)
  | None => None
  end.

(** ** The numbers of the run time *)

Lemma roundToDouble_exact n : n <= 2 ^ 53 -> roundToDouble n = Num n.
Proof.
  intros Hn. unfold roundToDouble.
  destruct (n <? 2 ^ 53) eqn:E; [reflexivity|].
  apply Z.ltb_ge in E.
  assert (n = 2 ^ 53) as -> by lia.
  reflexivity.
Qed.

(** Known values of the rounding: [9007199254740993] and
    [9007199254740995] evaluate to their even neighbours, the largest double
    is kept, and half an ulp above it overflows. *)
Example roundToDouble_tie_down :
  roundToDouble 9007199254740993 = Num 9007199254740992.
Proof. reflexivity. Qed.

Example roundToDouble_tie_up :
  roundToDouble 9007199254740995 = Num 9007199254740996.
Proof. reflexivity. Qed.

Example roundToDouble_max_value :
  roundToDouble (2 ^ 1024 - 2 ^ 971) = Num (2 ^ 1024 - 2 ^ 971) /\
  roundToDouble (2 ^ 1024 - 2 ^ 970 - 1) = Num (2 ^ 1024 - 2 ^ 971) /\
  roundToDouble (2 ^ 1024 - 2 ^ 970) = Infinity.
Proof. repeat split; vm_compute; reflexivity. Qed.

Example Number_leading_zeros : Number (str "007") = Num 7.
Proof. reflexivity. Qed.

Lemma Math_max_comm a b : Math_max a b = Math_max b a.
Proof. destruct a, b; simpl; try reflexivity. now rewrite Z.max_comm. Qed.

Lemma Math_max_assoc a b c :
  Math_max (Math_max a b) c = Math_max a (Math_max b c).
Proof.
  destruct a, b, c; simpl; try reflexivity. now rewrite Z.max_assoc.
Qed.

Lemma fold_Math_max_init l a b :
  fold_left Math_max l (Math_max a b) = Math_max a (fold_left Math_max l b).
Proof.
  revert b. induction l as [|x l IH]; intros b; simpl; [reflexivity|].
  now rewrite Math_max_assoc, IH.
Qed.

Lemma fold_Math_max_perm l l' :
  Permutation l l' ->
  forall init, fold_left Math_max l init = fold_left Math_max l' init.
Proof.
  induction 1 as [|x l l' _ IH|x y l|l l' l'' _ IH1 _ IH2]; intros init; simpl.
  - reflexivity.
  - apply IH.
  - f_equal. rewrite !Math_max_assoc. f_equal. apply Math_max_comm.
  - now rewrite IH1.
Qed.

Lemma list_max0_nonneg l : 0 <= list_max0 l.
Proof. induction l; simpl; lia. Qed.

Lemma list_max0_upper l x : In x l -> x <= list_max0 l.
Proof.
  induction l as [|y l IH]; simpl; [tauto|].
  intros [->|Hx]; [lia|]. specialize (IH Hx). lia.
Qed.

Lemma list_max0_bound l b : 0 < b -> Forall (fun x => x < b) l -> list_max0 l < b.
Proof. intros Hb. induction 1; simpl; lia. Qed.

Lemma fold_Math_max_exact l init :
  0 <= init ->
  fold_left Math_max (map Num l) (Num init) = Num (Z.max init (list_max0 l)).
Proof.
  revert init. induction l as [|x l IH]; intros init Hi; simpl.
  - f_equal. lia.
  - rewrite IH by lia. f_equal. lia.
Qed.

Lemma collect_app {A B} (f : A -> option B) l1 l2 :
  collect f (l1 ++ l2) = collect f l1 ++ collect f l2.
Proof.
  induction l1 as [|x l1 IH]; simpl; [reflexivity|].
  destruct (f x); simpl; now rewrite IH.
Qed.

Lemma collect_perm {A B} (f : A -> option B) l l' :
  Permutation l l' -> Permutation (collect f l) (collect f l').
Proof.
  induction 1 as [|x l l' _ IH|x y l|l l' l'' _ IH1 _ IH2]; simpl.
  - constructor.
  - destruct (f x); [now constructor | assumption].
  - destruct (f x), (f y); try reflexivity. apply perm_swap.
  - now transitivity (collect f l').
Qed.

Lemma in_collect {A B} (f : A -> option B) l y :
  In y (collect f l) <-> exists x, In x l /\ f x = Some y.
Proof.
  induction l as [|x l IH]; simpl.
  - split; [tauto | intros (x & [] & _)].
  - destruct (f x) eqn:E; simpl; rewrite IH; split.
    + intros [->|(z & Hz & Hf)]; eauto.
    + intros (z & [->|Hz] & Hf); [left; congruence | eauto].
    + intros (z & Hz & Hf); eauto.
    + intros (z & [->|Hz] & Hf); [congruence | eauto].
Qed.

Lemma filter_perm {A} (p : A -> bool) l l' :
  Permutation l l' -> Permutation (filter p l) (filter p l').
Proof.
  induction 1 as [|x l l' _ IH|x y l|l l' l'' _ IH1 _ IH2]; simpl.
  - constructor.
  - destruct (p x); [now constructor | assumption].
  - destruct (p x), (p y); try reflexivity. apply perm_swap.
  - now transitivity (filter p l').
Qed.

Lemma jsstring_eqb_eq a b : jsstring_eqb a b = true <-> a = b.
Proof.
  revert b. induction a as [|x a IH]; intros [|y b]; simpl;
    try (split; [discriminate | congruence]); [tauto|].
  rewrite andb_true_iff, N.eqb_eq, IH. split.
  - now intros [-> ->].
  - intros [= -> ->]; tauto.
Qed.

(** ** The two folds of [getNextStallNumbers] *)

Section Folds.
Context `{UnicodeCaseMapping}.

Lemma nextIdNumber_fold stalls type :
  nextIdNumber (getNextStallNumbers stalls type) =
  plus1 (fold_left Math_max
           (map Number (collect (fun r => idCapture (id r)) stalls)) (Num 0)).
Proof.
  unfold getNextStallNumbers; simpl. f_equal.
  generalize (Num 0) as init.
  induction stalls as [|r stalls IH]; intros init; [reflexivity|].
  simpl fold_left at 1. rewrite IH. clear IH.
  unfold collect at 2; fold (@collect StallRecord jsstring).
  unfold idCapture at 2.
  destruct (exec stallIdPattern (id r)); reflexivity.
Qed.

Lemma nextNameNumber_fold stalls type :
  nextNameNumber (getNextStallNumbers stalls type) =
  plus1 (fold_left Math_max
           (map Number (collect (fun r => nameCapture (name r))
                                (filter (passesFilter type) stalls)))
           (Num 0)).
Proof.
  unfold getNextStallNumbers; simpl. f_equal.
  generalize (Num 0) as init.
  induction stalls as [|r stalls IH]; intros init; [reflexivity|].
  simpl fold_left at 1. rewrite IH. clear IH.
  simpl filter. unfold passesFilter at 2.
  destruct type as [t|]; simpl negb.
  - destruct (jsstring_eqb _ _); simpl; [|reflexivity].
    unfold nameCapture at 2.
    destruct (exec stallNamePattern (name r)); reflexivity.
  - simpl. unfold nameCapture at 2.
    destruct (exec stallNamePattern (name r)); reflexivity.
Qed.

End Folds.

(** ** What the matcher computes *)

Lemma takeWhile_dropWhile {A} (p : A -> bool) l :
  takeWhile p l ++ dropWhile p l = l.
Proof.
  induction l as [|x l IH]; simpl; [reflexivity|].
  destruct (p x); simpl; [now rewrite IH | reflexivity].
Qed.

Lemma takeWhile_all {A} (p : A -> bool) l : forallb p (takeWhile p l) = true.
Proof.
  induction l as [|x l IH]; simpl; [reflexivity|].
  destruct (p x) eqn:E; simpl; [now rewrite E | reflexivity].
Qed.

Lemma dropWhile_head {A} (p : A -> bool) l : headFails p (dropWhile p l).
Proof.
  induction l as [|x l IH]; simpl; [exact I|].
  destruct (p x) eqn:E; [assumption | exact E].
Qed.

Lemma firstn_takeWhile {A} (p : A -> bool) l :
  firstn (List.length (takeWhile p l)) l = takeWhile p l.
Proof.
  induction l as [|x l IH]; simpl; [reflexivity|].
  destruct (p x); simpl; [now rewrite IH | reflexivity].
Qed.

Lemma skipn_takeWhile {A} (p : A -> bool) l :
  skipn (List.length (takeWhile p l)) l = dropWhile p l.
Proof.
  induction l as [|x l IH]; simpl; [reflexivity|].
  destruct (p x); simpl; [now rewrite IH | reflexivity].
Qed.

(** A run followed by something that does not continue it is the longest
    run. *)
Lemma takeWhile_app {A} (p : A -> bool) run rest :
  forallb p run = true -> headFails p rest ->
  takeWhile p (run ++ rest) = run /\ dropWhile p (run ++ rest) = rest.
Proof.
  intros Hall Hrest. induction run as [|x run IH]; simpl in *.
  - destruct rest as [|y rest]; simpl in *; [tauto|]. now rewrite Hrest.
  - apply andb_true_iff in Hall as [-> Hall].
    destruct (IH Hall) as [-> ->]. tauto.
Qed.

(** Any run at the head is a prefix of the longest one. *)
Lemma takeWhile_prefix {A} (p : A -> bool) run rest :
  forallb p run = true ->
  exists more, takeWhile p (run ++ rest) = run ++ more.
Proof.
  intros Hall. induction run as [|x run IH]; simpl in *.
  - eauto.
  - apply andb_true_iff in Hall as [-> Hall].
    destruct (IH Hall) as [more ->]. eauto.
Qed.

Lemma matchSeq_many1 i a captured ns s :
  matchSeq i (Many1 a captured :: ns) s =
  backtrack (matchSeq i ns) captured s
    (List.length (takeWhile (atomMatches i a) s)).
Proof.
  simpl. generalize (List.length (takeWhile (atomMatches i a) s)) as k.
  induction k as [|k IH]; [reflexivity|].
  cbn [backtrack]. rewrite <- IH. reflexivity.
Qed.

Lemma matchSeq_one i a ns s :
  matchSeq i (One a :: ns) s =
  match s with
  | c :: s' =>
      if atomMatches i a c then
        match matchSeq i ns s' with
        | Some (n, caps) => Some (S n, caps)
        | None => None
        end
      else None
  | [] => None
  end.
Proof. reflexivity. Qed.

Lemma matchSeq_nil i s : matchSeq i [] s = Some (0%nat, []).
Proof. destruct s; reflexivity. Qed.

(** The last quantified class of a pattern takes the longest run. *)
Lemma matchSeq_last i a captured s :
  matchSeq i [Many1 a captured] s =
  match takeWhile (atomMatches i a) s with
  | [] => None
  | run => Some (List.length run, if captured then [run] else [])
  end.
Proof.
  rewrite matchSeq_many1.
  pose proof (firstn_takeWhile (atomMatches i a) s) as Hf.
  destruct (takeWhile (atomMatches i a) s) as [|x run]; [reflexivity|].
  cbn [List.length backtrack] in *. rewrite matchSeq_nil, Hf, Nat.add_0_r.
  reflexivity.
Qed.

(** Whitespace before the digits: giving whitespace back never helps,
    since what comes next is then whitespace and no digit. *)
Lemma whiteSpace_not_digit c : isWhiteSpace c = true -> isDigit c = false.
Proof.
  unfold isWhiteSpace, isDigit. intros Hw.
  destruct (N.leb_spec 48 c), (N.leb_spec c 57); try reflexivity.
  repeat match type of Hw with
         | context [(?a <=? ?b)%N] => destruct (N.leb_spec a b); try lia
         | context [(?a =? ?b)%N] => destruct (N.eqb_spec a b); try lia
         end; discriminate.
Qed.

Lemma skipn_in_run {A} (p : A -> bool) l k :
  (k < List.length (takeWhile p l))%nat ->
  exists x rest, skipn k l = x :: rest /\ p x = true.
Proof.
  revert k. induction l as [|x l IH]; intros k; simpl; [lia|].
  destruct (p x) eqn:E; simpl; [|lia].
  destruct k as [|k]; simpl; [eauto|].
  intros Hk. apply IH. lia.
Qed.

Lemma matchSeq_space_digits i s :
  matchSeq i [Many1 Space false; Many1 Digit true] s =
  match takeWhile isWhiteSpace s with
  | [] => None
  | sp =>
      match takeWhile isDigit (dropWhile isWhiteSpace s) with
      | [] => None
      | ds => Some ((List.length sp + List.length ds)%nat, [ds])
      end
  end.
Proof.
  rewrite matchSeq_many1.
  change (atomMatches i Space) with isWhiteSpace.
  pose proof (skipn_takeWhile isWhiteSpace s) as Hs.
  assert (Hlow : forall k, (k < List.length (takeWhile isWhiteSpace s))%nat ->
                 matchSeq i [Many1 Digit true] (skipn k s) = None).
  { intros k Hk. rewrite matchSeq_last.
    destruct (skipn_in_run _ _ _ Hk) as (x & rest & -> & Hx).
    cbn [takeWhile atomMatches]. now rewrite (whiteSpace_not_digit _ Hx). }
  destruct (takeWhile isWhiteSpace s) as [|x sp]; [reflexivity|].
  cbn [List.length backtrack] in *.
  rewrite matchSeq_last. change (atomMatches i Digit) with isDigit.
  rewrite Hs.
  destruct (takeWhile isDigit (dropWhile isWhiteSpace s)) as [|d ds];
    [|reflexivity].
  assert (Hloop : forall k, (k <= List.length sp)%nat ->
            backtrack (matchSeq i [Many1 Digit true]) false s k = None).
  { induction k as [|k IH]; intros Hk; [reflexivity|].
    cbn [backtrack]. rewrite Hlow by lia. apply IH. lia. }
  apply Hloop. lia.
Qed.

(** [exec] returns the leftmost position at which the pattern matches. *)
Lemma exec_Some_iff re s arr :
  exec re s = Some arr <->
  exists pre t n caps,
    s = pre ++ t /\
    matchSeq (ignoreCase re) (pattern re) t = Some (n, caps) /\
    arr = firstn n t :: caps /\
    forall pre' t', s = pre' ++ t' ->
      (List.length pre' < List.length pre)%nat ->
      matchSeq (ignoreCase re) (pattern re) t' = None.
Proof.
  split.
  - induction s as [|c s IH]; simpl.
    + destruct (matchSeq _ _ []) as [[n caps]|] eqn:E; [|discriminate].
      intros [= <-]. exists [], [], n, caps. simpl. repeat split; auto.
      intros; lia.
    + destruct (matchSeq _ _ (c :: s)) as [[n caps]|] eqn:E.
      * intros [= <-]. exists [], (c :: s), n, caps. simpl.
        repeat split; auto. intros; lia.
      * intros Hex. destruct (IH Hex) as (pre & t & n & caps & -> & Hm & -> & Hmin).
        exists (c :: pre), t, n, caps. repeat split; auto.
        intros [|c' pre'] t' Heq Hlen; simpl in *.
        -- now subst t'.
        -- injection Heq as _ Heq. apply (Hmin pre'); [assumption | lia].
  - intros (pre & t & n & caps & -> & Hm & -> & Hmin).
    induction pre as [|c pre IH]; simpl.
    + destruct t; simpl; now rewrite Hm.
    + rewrite (Hmin [] (c :: pre ++ t)) by (simpl; auto; lia).
      apply IH. intros pre' t' Heq Hlen.
      apply (Hmin (c :: pre')); simpl; [now rewrite Heq | lia].
Qed.

Lemma exec_None_iff re s :
  exec re s = None <->
  forall pre t, s = pre ++ t ->
    matchSeq (ignoreCase re) (pattern re) t = None.
Proof.
  split.
  - induction s as [|c s IH]; simpl.
    + destruct (matchSeq _ _ []) as [[n caps]|] eqn:E; [discriminate|].
      intros _ [|? ?] t; simpl; [now intros <- | discriminate].
    + destruct (matchSeq _ _ (c :: s)) as [[n caps]|] eqn:E; [discriminate|].
      intros Hex [|c' pre] t; simpl.
      * now intros <-.
      * intros [= _ ->]. now apply (IH Hex pre).
  - intros Hall. induction s as [|c s IH]; simpl.
    + now rewrite (Hall [] []).
    + rewrite (Hall [] (c :: s)) by reflexivity.
      apply IH. intros pre t ->. now apply (Hall (c :: pre)).
Qed.

Lemma matchSeq_lits i lit ns s n caps :
  matchSeq i (map (fun c => One (Lit c)) lit ++ ns) s = Some (n, caps) <->
  exists w rest m,
    s = w ++ rest /\ litMatch i lit w /\
    matchSeq i ns rest = Some (m, caps) /\ n = (List.length lit + m)%nat.
Proof.
  revert s n. induction lit as [|p lit IH]; intros s n; cbn [map app List.length].
  - split.
    + intros Hm. exists [], s, n. repeat split; auto. constructor.
    + intros (w & rest & m & -> & Hw & Hm & ->). inversion Hw; subst. exact Hm.
  - rewrite matchSeq_one. split.
    + destruct s as [|c s]; [discriminate|].
      destruct (atomMatches i (Lit p) c) eqn:Ec; [|discriminate].
      destruct (matchSeq i _ s) as [[n0 caps0]|] eqn:Em; [|discriminate].
      intros [= <- <-]. apply IH in Em as (w & rest & m & -> & Hw & Hm & ->).
      exists (c :: w), rest, m. repeat split; auto. now constructor.
    + intros (w & rest & m & -> & Hw & Hm & ->).
      inversion Hw as [|p' c lit' w' Hc Hw']; subst. cbn [app].
      rewrite Hc.
      assert (matchSeq i (map (fun c => One (Lit c)) lit ++ ns) (w' ++ rest)
              = Some ((List.length lit + m)%nat, caps)) as ->.
      { apply IH. exists w', rest, m. auto. }
      reflexivity.
Qed.

Lemma litMatch_exact lit w : litMatch false lit w <-> w = lit.
Proof.
  split.
  - induction 1 as [|p c lit w Hc _ IH]; [reflexivity|].
    simpl in Hc. apply N.eqb_eq in Hc. now subst.
  - intros ->. induction lit; constructor; auto. simpl. apply N.eqb_refl.
Qed.

Lemma atomMatches_ignoreCase p c :
  (p < 128)%N ->
  atomMatches true (Lit p) c = true <-> latinToLower c = latinToLower p.
Proof.
  intros Hp. cbn [atomMatches]. unfold latinToUpper, latinToLower, isBasicLatin.
  rewrite andb_true_iff, N.eqb_eq, N.ltb_lt.
  repeat match goal with
         | |- context [(?a <=? ?b)%N] => destruct (N.leb_spec a b)
         end; cbn [andb]; lia.
Qed.

Lemma litMatch_ignoreCase lit w :
  forallb isBasicLatin lit = true ->
  litMatch true lit w <-> map latinToLower w = map latinToLower lit.
Proof.
  intros Hlit. split.
  - induction 1 as [|p c lit w Hc _ IH]; [reflexivity|].
    simpl in Hlit. apply andb_true_iff in Hlit as [Hp Hlit].
    apply N.ltb_lt in Hp. apply atomMatches_ignoreCase in Hc; [|assumption].
    simpl. now rewrite Hc, IH.
  - revert w. induction lit as [|p lit IH]; intros [|c w]; simpl;
      try discriminate; [constructor|].
    simpl in Hlit. apply andb_true_iff in Hlit as [Hp Hlit].
    apply N.ltb_lt in Hp. intros [= Hc Hw]. constructor.
    + now apply atomMatches_ignoreCase.
    + now apply IH.
Qed.

(** ** The two patterns, declaratively *)

Lemma digits_head_any i t :
  (exists ds post, t = ds ++ post /\ ds <> [] /\ forallb isDigit ds = true) ->
  exists n caps, matchSeq i [Many1 Digit true] t = Some (n, caps).
Proof.
  intros (ds & post & -> & Hne & Hd). rewrite matchSeq_last.
  change (atomMatches i Digit) with isDigit.
  destruct (takeWhile_prefix isDigit ds post Hd) as [more ->].
  destruct ds; [congruence|]. simpl. eauto.
Qed.

Lemma digits_head i t n caps :
  matchSeq i [Many1 Digit true] t = Some (n, caps) <->
  exists ds post,
    t = ds ++ post /\ ds <> [] /\ forallb isDigit ds = true /\
    headFails isDigit post /\ caps = [ds] /\ n = List.length ds.
Proof.
  rewrite matchSeq_last. change (atomMatches i Digit) with isDigit. split.
  - pose proof (takeWhile_dropWhile isDigit t) as Ht.
    pose proof (takeWhile_all isDigit t) as Ha.
    pose proof (dropWhile_head isDigit t) as Hh.
    destruct (takeWhile isDigit t) as [|d ds]; [discriminate|].
    intros [= <- <-]. exists (d :: ds), (dropWhile isDigit t).
    repeat split; auto. discriminate.
  - intros (ds & post & -> & Hne & Hd & Hh & -> & ->).
    destruct (takeWhile_app isDigit ds post Hd Hh) as [-> _].
    destruct ds; [congruence | reflexivity].
Qed.

(** Leftmost-match reasoning shared by the two patterns: [occ s pre ds post]
    says that the pattern occurs in [s] right after [pre], with digits [ds]
    followed by [post]. *)
Section Leftmost.
Variable re : RegExp.
Variable occ : jsstring -> jsstring -> jsstring -> jsstring -> Prop.
Hypothesis occ_shift : forall t pre ds post,
  occ (pre ++ t) pre ds post <-> occ t [] ds post.
Hypothesis occ_split : forall s pre ds post,
  occ s pre ds post -> exists t, s = pre ++ t.
Hypothesis head_sound : forall t n caps,
  matchSeq (ignoreCase re) (pattern re) t = Some (n, caps) ->
  exists ds post, occ t [] ds post /\ headFails isDigit post /\ caps = [ds].
Hypothesis head_complete : forall t ds post,
  occ t [] ds post -> headFails isDigit post ->
  exists n, matchSeq (ignoreCase re) (pattern re) t = Some (n, [ds]).
Hypothesis head_any : forall t ds post,
  occ t [] ds post -> matchSeq (ignoreCase re) (pattern re) t <> None.

Lemma capture_Some s ds :
  option_map (fun m => index m 1) (exec re s) = Some ds <->
  exists pre post,
    occ s pre ds post /\ headFails isDigit post /\
    forall pre' ds' post', occ s pre' ds' post' ->
      (List.length pre <= List.length pre')%nat.
Proof.
  split.
  - destruct (exec re s) as [arr|] eqn:E; [|discriminate].
    cbn [option_map]. intros [= <-].
    apply exec_Some_iff in E as (pre & t & n & caps & -> & Hm & -> & Hmin).
    apply head_sound in Hm as (ds & post & Hocc & Hh & ->).
    exists pre, post. cbn [index nth]. split; [|split]; auto.
    + now apply occ_shift.
    + intros pre' ds' post' Hocc'.
      destruct (Nat.le_gt_cases (List.length pre) (List.length pre')) as [|Hlt];
        [assumption|exfalso].
      destruct (occ_split _ _ _ _ Hocc') as [t' Heq].
      rewrite Heq in Hocc'. apply occ_shift in Hocc'.
      apply head_any in Hocc'. apply Hocc'. now apply (Hmin pre').
  - intros (pre & post & Hocc & Hh & Hmin).
    destruct (occ_split _ _ _ _ Hocc) as [t Heq].
    pose proof Hocc as Hocc0. rewrite Heq in Hocc0. apply occ_shift in Hocc0.
    destruct (head_complete _ _ _ Hocc0 Hh) as [n Hm].
    assert (exec re s = Some (firstn n t :: [ds])) as ->; [|reflexivity].
    apply exec_Some_iff. exists pre, t, n, [ds]. repeat split; auto.
    intros pre' t' Heq' Hlt.
    destruct (matchSeq (ignoreCase re) (pattern re) t')
      as [[n' caps']|] eqn:Em; [exfalso|reflexivity].
    apply head_sound in Em as (ds' & post' & Hocc' & _).
    apply (occ_shift t' pre') in Hocc'. rewrite <- Heq' in Hocc'.
    apply Hmin in Hocc'. lia.
Qed.

Lemma capture_None s :
  option_map (fun m => index m 1) (exec re s) = None <->
  forall pre ds post, ~ occ s pre ds post.
Proof.
  split.
  - destruct (exec re s) as [arr|] eqn:E; [discriminate|].
    intros _ pre ds post Hocc.
    destruct (occ_split _ _ _ _ Hocc) as [t Heq].
    rewrite Heq in Hocc. apply occ_shift in Hocc.
    apply head_any in Hocc. apply Hocc.
    rewrite exec_None_iff in E. now apply (E pre).
  - intros Hno.
    assert (exec re s = None) as ->; [|reflexivity].
    apply exec_None_iff. intros pre t ->.
    destruct (matchSeq (ignoreCase re) (pattern re) t)
      as [[n caps]|] eqn:Em; [exfalso|reflexivity].
    apply head_sound in Em as (ds & post & Hocc & _).
    apply (occ_shift t pre) in Hocc. now apply Hno in Hocc.
Qed.

End Leftmost.

(** *** [/stall-(\d+)/] *)

Lemma idOccurrence_shift t pre ds post :
  idOccurrence (pre ++ t) pre ds post <-> idOccurrence t [] ds post.
Proof.
  unfold idOccurrence; cbn [app]. split.
  - intros (Heq & H1 & H2). apply app_inv_head in Heq. auto.
  - intros (-> & H1 & H2). auto.
Qed.

Lemma idOccurrence_split s pre ds post :
  idOccurrence s pre ds post -> exists t, s = pre ++ t.
Proof. intros (-> & _). eauto. Qed.

Lemma idPattern_sound t n caps :
  matchSeq (ignoreCase stallIdPattern) (pattern stallIdPattern) t
  = Some (n, caps) ->
  exists ds post,
    idOccurrence t [] ds post /\ headFails isDigit post /\ caps = [ds].
Proof.
  unfold stallIdPattern, idOccurrence; cbn [pattern ignoreCase app].
  rewrite matchSeq_lits.
  intros (w & rest & m & -> & Hw & Hm & ->).
  apply litMatch_exact in Hw as ->.
  apply digits_head in Hm as (ds & post & -> & Hne & Hd & Hh & -> & ->).
  exists ds, post. auto.
Qed.

Lemma idPattern_complete t ds post :
  idOccurrence t [] ds post -> headFails isDigit post ->
  exists n,
    matchSeq (ignoreCase stallIdPattern) (pattern stallIdPattern) t
    = Some (n, [ds]).
Proof.
  intros (-> & Hne & Hd) Hh. cbn [app].
  exists (List.length (str "stall-") + List.length ds)%nat.
  unfold stallIdPattern; cbn [pattern ignoreCase]. apply matchSeq_lits.
  exists (str "stall-"), (ds ++ post), (List.length ds).
  repeat split; [now apply litMatch_exact|].
  apply digits_head. exists ds, post. repeat split; auto.
Qed.

Lemma idPattern_any t ds post :
  idOccurrence t [] ds post ->
  matchSeq (ignoreCase stallIdPattern) (pattern stallIdPattern) t <> None.
Proof.
  intros (-> & Hne & Hd). cbn [app].
  destruct (digits_head_any false (ds ++ post)) as (m & caps & Hm); [eauto|].
  assert (matchSeq (ignoreCase stallIdPattern) (pattern stallIdPattern)
            (str "stall-" ++ ds ++ post)
          = Some ((List.length (str "stall-") + m)%nat, caps)) as ->;
    [|discriminate].
  unfold stallIdPattern; cbn [pattern ignoreCase]. apply matchSeq_lits.
  exists (str "stall-"), (ds ++ post), m.
  repeat split; auto. now apply litMatch_exact.
Qed.

(** [idCapture] finds the leftmost [stall-<digits>] anywhere in the string
    and captures its whole digit run. *)
Lemma idCapture_Some s ds : idCapture s = Some ds <-> firstIdOccurrence s ds.
Proof.
  apply (capture_Some stallIdPattern idOccurrence idOccurrence_shift
           idOccurrence_split idPattern_sound idPattern_complete
           idPattern_any).
Qed.

Lemma idCapture_None s :
  idCapture s = None <-> forall pre ds post, ~ idOccurrence s pre ds post.
Proof.
  apply (capture_None stallIdPattern idOccurrence idOccurrence_shift
           idOccurrence_split idPattern_sound idPattern_any).
Qed.

(** *** [/Stall\s+(\d+)/i] *)

Lemma nameOccurrence_shift t pre ds post :
  nameOccurrence (pre ++ t) pre ds post <-> nameOccurrence t [] ds post.
Proof.
  unfold nameOccurrence; cbn [app]. split.
  - intros (w & sp & Heq & Hrest). apply app_inv_head in Heq. eauto.
  - intros (w & sp & -> & Hrest). eauto.
Qed.

Lemma nameOccurrence_split s pre ds post :
  nameOccurrence s pre ds post -> exists t, s = pre ++ t.
Proof. intros (w & sp & -> & _). eauto. Qed.

Lemma digit_not_whiteSpace ds post :
  ds <> [] -> forallb isDigit ds = true -> headFails isWhiteSpace (ds ++ post).
Proof.
  destruct ds as [|d ds]; [congruence|]. simpl. intros _ Hd.
  apply andb_true_iff in Hd as [Hd _].
  destruct (isWhiteSpace d) eqn:E; [|reflexivity].
  apply whiteSpace_not_digit in E. congruence.
Qed.

Lemma space_digits_head i t n caps :
  matchSeq i [Many1 Space false; Many1 Digit true] t = Some (n, caps) ->
  exists sp ds post,
    t = sp ++ ds ++ post /\ sp <> [] /\ forallb isWhiteSpace sp = true /\
    ds <> [] /\ forallb isDigit ds = true /\ headFails isDigit post /\
    caps = [ds].
Proof.
  rewrite matchSeq_space_digits.
  pose proof (takeWhile_dropWhile isWhiteSpace t) as Ht.
  pose proof (takeWhile_all isWhiteSpace t) as Ha.
  pose proof (takeWhile_dropWhile isDigit (dropWhile isWhiteSpace t)) as Ht'.
  pose proof (takeWhile_all isDigit (dropWhile isWhiteSpace t)) as Ha'.
  pose proof (dropWhile_head isDigit (dropWhile isWhiteSpace t)) as Hh.
  destruct (takeWhile isWhiteSpace t) as [|x sp]; [discriminate|].
  destruct (takeWhile isDigit (dropWhile isWhiteSpace t)) as [|d ds];
    [discriminate|].
  intros [= <- <-].
  exists (x :: sp), (d :: ds), (dropWhile isDigit (dropWhile isWhiteSpace t)).
  rewrite Ht'. repeat split; auto; discriminate.
Qed.

Lemma space_digits_any i sp ds post :
  sp <> [] -> forallb isWhiteSpace sp = true ->
  ds <> [] -> forallb isDigit ds = true ->
  exists n more,
    matchSeq i [Many1 Space false; Many1 Digit true] (sp ++ ds ++ post)
    = Some (n, [ds ++ more]) /\
    (headFails isDigit post -> more = []).
Proof.
  intros Hsp Hw Hne Hd. rewrite matchSeq_space_digits.
  destruct (takeWhile_app isWhiteSpace sp (ds ++ post) Hw
              (digit_not_whiteSpace ds post Hne Hd)) as [-> ->].
  destruct sp as [|x sp]; [congruence|].
  destruct (takeWhile_prefix isDigit ds post Hd) as [more Hmore].
  rewrite Hmore. destruct ds as [|d ds]; [congruence|]. cbn [app].
  eexists _, more. split; [reflexivity|].
  intros Hh. destruct (takeWhile_app isDigit (d :: ds) post Hd Hh) as [Ht _].
  rewrite Ht in Hmore.
  apply (f_equal (@List.length N)) in Hmore. rewrite length_app in Hmore.
  destruct more; [reflexivity | simpl in Hmore; lia].
Qed.

Lemma stall_word w :
  litMatch true (str "Stall") w <-> map latinToLower w = str "stall".
Proof. now rewrite litMatch_ignoreCase. Qed.

Lemma namePattern_sound t n caps :
  matchSeq (ignoreCase stallNamePattern) (pattern stallNamePattern) t
  = Some (n, caps) ->
  exists ds post,
    nameOccurrence t [] ds post /\ headFails isDigit post /\ caps = [ds].
Proof.
  unfold stallNamePattern, nameOccurrence; cbn [pattern ignoreCase app].
  rewrite matchSeq_lits.
  intros (w & rest & m & -> & Hw & Hm & ->).
  apply stall_word in Hw.
  apply space_digits_head in Hm
    as (sp & ds & post & -> & Hsp & Hws & Hne & Hd & Hh & ->).
  exists ds, post. split; [|auto]. exists w, sp. auto 10.
Qed.

Lemma namePattern_complete t ds post :
  nameOccurrence t [] ds post -> headFails isDigit post ->
  exists n,
    matchSeq (ignoreCase stallNamePattern) (pattern stallNamePattern) t
    = Some (n, [ds]).
Proof.
  intros (w & sp & -> & Hw & Hsp & Hws & Hne & Hd) Hh. cbn [app].
  destruct (space_digits_any true sp ds post Hsp Hws Hne Hd)
    as (m & more & Hm & Hmore).
  rewrite (Hmore Hh), app_nil_r in Hm.
  exists (List.length (str "Stall") + m)%nat.
  unfold stallNamePattern; cbn [pattern ignoreCase]. apply matchSeq_lits.
  exists w, (sp ++ ds ++ post), m. repeat split; auto. now apply stall_word.
Qed.

Lemma namePattern_any t ds post :
  nameOccurrence t [] ds post ->
  matchSeq (ignoreCase stallNamePattern) (pattern stallNamePattern) t <> None.
Proof.
  intros (w & sp & -> & Hw & Hsp & Hws & Hne & Hd). cbn [app].
  destruct (space_digits_any true sp ds post Hsp Hws Hne Hd)
    as (m & more & Hm & _).
  assert (matchSeq (ignoreCase stallNamePattern) (pattern stallNamePattern)
            (w ++ sp ++ ds ++ post)
          = Some ((List.length (str "Stall") + m)%nat, [ds ++ more])) as ->;
    [|discriminate].
  unfold stallNamePattern; cbn [pattern ignoreCase]. apply matchSeq_lits.
  exists w, (sp ++ ds ++ post), m. repeat split; auto. now apply stall_word.
Qed.

(** [nameCapture] finds the leftmost [stall], in any mix of cases, that is
    followed by whitespace and digits, anywhere in the string, and captures
    the whole digit run. *)
Lemma nameCapture_Some s ds :
  nameCapture s = Some ds <-> firstNameOccurrence s ds.
Proof.
  apply (capture_Some stallNamePattern nameOccurrence nameOccurrence_shift
           nameOccurrence_split namePattern_sound namePattern_complete
           namePattern_any).
Qed.

Lemma nameCapture_None s :
  nameCapture s = None <-> forall pre ds post, ~ nameOccurrence s pre ds post.
Proof.
  apply (capture_None stallNamePattern nameOccurrence nameOccurrence_shift
           nameOccurrence_split namePattern_sound namePattern_any).
Qed.

(** ** Numbers within and beyond the safe range *)

Lemma roundToDouble_pos n : 0 < n -> below 0 (roundToDouble n).
Proof.
  intros Hn. unfold roundToDouble.
  destruct (n <? 2 ^ 53) eqn:E; [exact Hn|].
  apply Z.ltb_ge in E.
  set (e := Z.log2 n - 52).
  assert (He : 1 <= e).
  { unfold e. assert (53 <= Z.log2 n); [|lia].
    apply Z.log2_le_pow2; lia. }
  assert (Hq : 0 < Z.shiftr n e).
  { rewrite Z.shiftr_div_pow2 by lia.
    apply Z.div_str_pos. split; [apply Z.pow_pos_nonneg; lia|].
    transitivity (2 ^ Z.log2 n).
    - apply Z.pow_le_mono_r; lia.
    - apply Z.log2_spec. lia. }
  cbv zeta.
  match goal with |- context [if ?c then Z.shiftr n e + 1 else _] =>
    generalize c end.
  intros c.
  assert (Hv : 0 < Z.shiftl (if c then Z.shiftr n e + 1 else Z.shiftr n e) e).
  { rewrite Z.shiftl_mul_pow2 by lia.
    apply Z.mul_pos_pos; [destruct c; lia | apply Z.pow_pos_nonneg; lia]. }
  destruct (2 ^ 1024 <=? _); [exact I | exact Hv].
Qed.

Lemma fold_Math_max_nonneg l :
  below (-1) (fold_left Math_max l (Num 0)).
Proof.
  change (Num 0) with (Math_max (Num 0) (Num 0)).
  rewrite fold_Math_max_init.
  destruct (fold_left Math_max l (Num 0)); simpl; lia.
Qed.

Lemma plus1_pos x : below (-1) x -> below 0 (plus1 x).
Proof.
  destruct x as [z|]; simpl; [|trivial].
  intros Hz. apply roundToDouble_pos. lia.
Qed.

Lemma map_Number_exact caps :
  Forall (fun ds => digitsValue ds <= MAX_SAFE_INTEGER) caps ->
  map Number caps = map Num (map digitsValue caps).
Proof.
  unfold MAX_SAFE_INTEGER.
  induction 1 as [|ds caps Hds _ IH]; simpl; [reflexivity|].
  rewrite IH. unfold Number. rewrite roundToDouble_exact by lia. reflexivity.
Qed.

Lemma collect_option_map {A B C} (f : A -> option B) (g : B -> C) l :
  collect (fun x => option_map g (f x)) l = map g (collect f l).
Proof.
  induction l as [|x l IH]; simpl; [reflexivity|].
  destruct (f x); simpl; now rewrite IH.
Qed.

(** One more than the largest of a list of safe integers, computed the
    way the two folds do. *)
Lemma plus1_fold_exact (f : StallRecord -> option jsstring) stalls :
  (forall r n, In r stalls -> option_map digitsValue (f r) = Some n ->
               n <= MAX_SAFE_INTEGER) ->
  plus1 (fold_left Math_max (map Number (collect f stalls)) (Num 0)) =
  Num (list_max0 (collect (fun r => option_map digitsValue (f r)) stalls) + 1).
Proof.
  intros Hsafe. rewrite collect_option_map.
  assert (Hall : Forall (fun ds => digitsValue ds <= MAX_SAFE_INTEGER)
                        (collect f stalls)).
  { apply Forall_forall. intros ds Hin.
    apply in_collect in Hin as (r & Hr & Hf).
    apply (Hsafe r); [assumption|]. now rewrite Hf. }
  rewrite (map_Number_exact _ Hall), fold_Math_max_exact by lia.
  pose proof (list_max0_nonneg (map digitsValue (collect f stalls))) as H0.
  assert (Hb : list_max0 (map digitsValue (collect f stalls)) < 2 ^ 53).
  { apply list_max0_bound; [lia|].
    apply Forall_map. eapply Forall_impl; [|exact Hall].
    unfold MAX_SAFE_INTEGER. cbv beta. intros; lia. }
  rewrite Z.max_r by lia. cbn [plus1].
  apply roundToDouble_exact. lia.
Qed.

(** The integers the patterns capture are not negative. *)
Lemma digitsValue_from acc ds :
  0 <= acc -> forallb isDigit ds = true ->
  0 <= fold_left (fun a d => 10 * a + (Z.of_N d - 48)) ds acc.
Proof.
  revert acc. induction ds as [|d ds IH]; intros acc Hacc Hd;
    cbn [fold_left]; [exact Hacc|].
  cbn [forallb] in Hd. apply andb_true_iff in Hd as [Hd Hds].
  apply IH; [|exact Hds].
  unfold isDigit in Hd. apply andb_true_iff in Hd as [Hlo _].
  apply N.leb_le in Hlo. lia.
Qed.

Lemma digitsValue_nonneg ds : forallb isDigit ds = true -> 0 <= digitsValue ds.
Proof. apply digitsValue_from. lia. Qed.

Lemma nameNumber_nonneg s n : nameNumber s = Some n -> 0 <= n.
Proof.
  unfold nameNumber. destruct (nameCapture s) as [ds|] eqn:Hc; [|discriminate].
  intros [= <-]. apply digitsValue_nonneg.
  apply nameCapture_Some in Hc as (pre & post & Hocc & _).
  destruct Hocc as (w & sp & _ & _ & _ & _ & _ & Hd). exact Hd.
Qed.

(** ** Properties of [getNextStallNumbers] *)

Section Properties.
Context `{UnicodeCaseMapping}.

Lemma getNextStallNumbers_folds stalls type :
  getNextStallNumbers stalls type =
  {| nextIdNumber :=
       plus1 (fold_left Math_max
                (map Number (collect (fun r => idCapture (id r)) stalls))
                (Num 0));
     nextNameNumber :=
       plus1 (fold_left Math_max
                (map Number (collect (fun r => nameCapture (name r))
                                     (filter (passesFilter type) stalls)))
                (Num 0)) |}.
Proof.
  rewrite <- (nextIdNumber_fold stalls type), <- nextNameNumber_fold.
  reflexivity.
Qed.

Lemma namesSafe_filter type stalls :
  namesSafe type stalls ->
  forall r n, In r (filter (passesFilter type) stalls) ->
              option_map digitsValue (nameCapture (name r)) = Some n ->
              n <= MAX_SAFE_INTEGER.
Proof.
  intros Hsafe r n Hin Hn. apply filter_In in Hin as [Hin Hp].
  now apply (Hsafe r).
Qed.

Lemma toLowerCase_empty : toLowerCase [] = [].
Proof. now rewrite toLowerCase_basic_latin. Qed.

Lemma passesFilter_same type1 type2 :
  toLowerCase (trim type1) = toLowerCase (trim type2) ->
  forall stalls,
    getNextStallNumbers stalls (Some type1) =
    getNextStallNumbers stalls (Some type2).
Proof.
  intros Heq stalls. rewrite !getNextStallNumbers_folds.
  unfold passesFilter. now rewrite Heq.
Qed.

(** C1 (as amended).  The id pattern is searched anywhere in the id: the
    integer of a record is the value of the whole digit run of the leftmost
    [stall-<digits>] its id contains, and a record whose id contains none
    carries no integer.  When every such integer is a safe integer (at most
    2^53 - 1), [nextIdNumber] is one more than the largest of them, and 1
    when there is none, whatever the type argument. *)
Theorem nextIdNumber_leftmost_max_plus_one stalls type :
  idsSafe stalls ->
  (forall s n, idNumber s = Some n <->
               exists ds, firstIdOccurrence s ds /\ n = digitsValue ds) /\
  (forall s, idNumber s = None <->
             forall pre ds post, ~ idOccurrence s pre ds post) /\
  nextIdNumber (getNextStallNumbers stalls type) =
  Num (list_max0 (collect (fun r => idNumber (id r)) stalls) + 1).
Proof.
  intros Hsafe. split; [|split].
  - intros s n. unfold idNumber. split.
    + destruct (idCapture s) as [ds|] eqn:E; [|discriminate].
      intros [= <-]. apply idCapture_Some in E. eauto.
    + intros (ds & Hocc & ->). apply idCapture_Some in Hocc.
      now rewrite Hocc.
  - intros s. rewrite <- idCapture_None. unfold idNumber.
    destruct (idCapture s); simpl; split; congruence.
  - rewrite nextIdNumber_fold. now apply plus1_fold_exact.
Qed.

(** C2 (as amended).  Records failing the type filter are discarded first;
    the integer of a remaining record is the value of the whole digit run of
    the leftmost [stall], in any mix of cases, followed by whitespace and
    digits, anywhere in its name.  When every such integer is a safe integer
    (at most 2^53 - 1), [nextNameNumber] is one more than the largest of
    them, and 1 when there is none.  The name ["Corner Stall 12 - North"]
    carries 12. *)
Theorem nextNameNumber_filtered_max_plus_one stalls type :
  namesSafe type stalls ->
  (forall s n, nameNumber s = Some n <->
               exists ds, firstNameOccurrence s ds /\ n = digitsValue ds) /\
  (forall s, nameNumber s = None <->
             forall pre ds post, ~ nameOccurrence s pre ds post) /\
  nameNumber (str "Corner Stall 12 - North") = Some 12 /\
  nextNameNumber (getNextStallNumbers stalls type) =
  Num (list_max0 (collect (fun r => nameNumber (name r))
                          (filter (passesFilter type) stalls)) + 1).
Proof.
  intros Hsafe. split; [|split; [|split]].
  - intros s n. unfold nameNumber. split.
    + destruct (nameCapture s) as [ds|] eqn:E; [|discriminate].
      intros [= <-]. apply nameCapture_Some in E. eauto.
    + intros (ds & Hocc & ->). apply nameCapture_Some in Hocc.
      now rewrite Hocc.
  - intros s. rewrite <- nameCapture_None. unfold nameNumber.
    destruct (nameCapture s); simpl; split; congruence.
  - reflexivity.
  - rewrite nextNameNumber_fold. apply plus1_fold_exact.
    now apply namesSafe_filter.
Qed.

(** C3 (as amended).  When the integers carried by the ids are safe
    integers, [nextIdNumber] is strictly greater than each of them; when the
    integers carried by the names of the records that pass the type filter
    are safe integers, [nextNameNumber] is strictly greater than each of
    them. *)
Theorem next_numbers_exceed_safe_suffixes stalls type :
  (idsSafe stalls ->
   forall r n, In r stalls -> idNumber (id r) = Some n ->
               below n (nextIdNumber (getNextStallNumbers stalls type))) /\
  (namesSafe type stalls ->
   forall r n, In r stalls -> passesFilter type r = true ->
               nameNumber (name r) = Some n ->
               below n (nextNameNumber (getNextStallNumbers stalls type))).
Proof.
  split.
  - intros Hsafe r n Hin Hn.
    rewrite nextIdNumber_fold, (plus1_fold_exact _ _ Hsafe). cbn [below].
    assert (n <= list_max0 (collect (fun r => idNumber (id r)) stalls));
      [|unfold idNumber in *; lia].
    apply list_max0_upper, in_collect. eauto.
  - intros Hsafe r n Hin Hp Hn.
    rewrite nextNameNumber_fold,
      (plus1_fold_exact _ _ (namesSafe_filter _ _ Hsafe)). cbn [below].
    assert (n <= list_max0 (collect (fun r => nameNumber (name r))
                                    (filter (passesFilter type) stalls)));
      [|unfold nameNumber in *; lia].
    apply list_max0_upper, in_collect. exists r. split; [|assumption].
    apply filter_In. auto.
Qed.

(** C4.  On the empty collection both numbers are 1, with or without a
    type argument. *)
Theorem empty_collection_gives_one type :
  getNextStallNumbers [] type =
  {| nextIdNumber := Num 1; nextNameNumber := Num 1 |}.
Proof. reflexivity. Qed.

Ltac lower_literals :=
  repeat match goal with
         | |- context [toLowerCase ?s] =>
             rewrite (toLowerCase_basic_latin s) by reflexivity
         end.

(** C5.  For the records [stall-2 / Stall 3 / Fish] and
    [stall-7 / Stall 1 / Meat], whatever their other fields: without a type
    argument the result is 8 and 4; with the type argument ["fish"] it is 8
    and 4 again, the Meat record failing the filter and the name number
    being that of the Fish record alone. *)
Theorem fish_and_meat_example r1 r2 :
  id r1 = str "stall-2" -> name r1 = str "Stall 3" ->
  Stalls.type r1 = str "Fish" ->
  id r2 = str "stall-7" -> name r2 = str "Stall 1" ->
  Stalls.type r2 = str "Meat" ->
  getNextStallNumbers [r1; r2] None =
    {| nextIdNumber := Num 8; nextNameNumber := Num 4 |} /\
  getNextStallNumbers [r1; r2] (Some (str "fish")) =
    {| nextIdNumber := Num 8; nextNameNumber := Num 4 |} /\
  passesFilter (Some (str "fish")) r1 = true /\
  passesFilter (Some (str "fish")) r2 = false /\
  nextNameNumber (getNextStallNumbers [r1; r2] (Some (str "fish"))) =
  nextNameNumber (getNextStallNumbers [r1] (Some (str "fish"))).
Proof.
  intros Hi1 Hn1 Ht1 Hi2 Hn2 Ht2.
  assert (Hp1 : passesFilter (Some (str "fish")) r1 = true).
  { unfold passesFilter. rewrite Ht1. lower_literals. reflexivity. }
  assert (Hp2 : passesFilter (Some (str "fish")) r2 = false).
  { unfold passesFilter. rewrite Ht2. lower_literals. reflexivity. }
  rewrite !getNextStallNumbers_folds. cbn [filter nextNameNumber].
  rewrite Hp1, Hp2. cbn [passesFilter collect].
  rewrite Hi1, Hi2, Hn1, Hn2.
  repeat split; reflexivity.
Qed.

(** C6.  The type argument never reaches the id number: any two choices of
    it, absent or present, give the same [nextIdNumber]. *)
Theorem nextIdNumber_ignores_type stalls type1 type2 :
  nextIdNumber (getNextStallNumbers stalls type1) =
  nextIdNumber (getNextStallNumbers stalls type2).
Proof. reflexivity. Qed.

(** C7.  The result does not depend on the order of the records: the
    function reads its arguments only, so equal inputs give equal results,
    and any rearrangement of the collection gives the same two numbers. *)
Theorem getNextStallNumbers_order_independent stalls stalls' type :
  Permutation stalls stalls' ->
  getNextStallNumbers stalls type = getNextStallNumbers stalls' type.
Proof.
  intros Hperm. rewrite !getNextStallNumbers_folds. f_equal; f_equal.
  - apply fold_Math_max_perm, Permutation_map, collect_perm, Hperm.
  - apply fold_Math_max_perm, Permutation_map, collect_perm, filter_perm,
      Hperm.
Qed.

Lemma filter_without_type (l : list StallRecord) :
  filter (passesFilter None) l = l.
Proof. induction l as [|r l IH]; simpl; [reflexivity | now rewrite IH]. Qed.

(** A collection of one record: its name number is one more than the
    integer of the record when the record passes the filter, and 1 when it
    does not. *)
Lemma single_record_name_number r type n :
  nameNumber (name r) = Some n -> n <= MAX_SAFE_INTEGER ->
  nextNameNumber (getNextStallNumbers [r] type) =
  if passesFilter type r then Num (n + 1) else Num 1.
Proof.
  intros Hn Hsafe. pose proof (nameNumber_nonneg _ _ Hn) as Hpos.
  rewrite nextNameNumber_fold. cbn [filter].
  destruct (passesFilter type r); [|reflexivity].
  rewrite plus1_fold_exact.
  - cbn [collect]. fold (nameNumber (name r)). rewrite Hn.
    cbn [list_max0 fold_right]. f_equal. lia.
  - intros r' n' [<-|[]] Hn'. fold (nameNumber (name r)) in Hn'.
    congruence.
Qed.

(** C8.  The filter compares the trimmed, lower-cased type of each record
    with the trimmed, lower-cased type argument: the name number under a
    type argument is the name number, without argument, of the records whose
    normalised type equals the normalised argument; a record carrying the
    safe integer [n], alone in the collection, gives [n + 1] when the two
    normalised types are equal and 1 when they differ.  Hence [" FISH "]
    and ["fish"] give the same result on every collection, and a record of
    type [" Fish "] passes the filters ["fish"] and [" FISH "]: alone in the
    collection it gives [n + 1], as without a filter. *)
Theorem type_filter_trims_and_folds_case :
  (forall stalls type,
     nextNameNumber (getNextStallNumbers stalls (Some type)) =
     nextNameNumber
       (getNextStallNumbers
          (filter (fun r => jsstring_eqb (toLowerCase (trim (Stalls.type r)))
                                         (toLowerCase (trim type)))
                  stalls)
          None)) /\
  (forall r type n,
     nameNumber (name r) = Some n -> n <= MAX_SAFE_INTEGER ->
     (toLowerCase (trim (Stalls.type r)) = toLowerCase (trim type) ->
      nextNameNumber (getNextStallNumbers [r] (Some type)) = Num (n + 1)) /\
     (toLowerCase (trim (Stalls.type r)) <> toLowerCase (trim type) ->
      nextNameNumber (getNextStallNumbers [r] (Some type)) = Num 1)) /\
  (forall stalls,
     getNextStallNumbers stalls (Some (str " FISH ")) =
     getNextStallNumbers stalls (Some (str "fish"))) /\
  (forall r n,
     Stalls.type r = str " Fish " ->
     nameNumber (name r) = Some n -> n <= MAX_SAFE_INTEGER ->
     nextNameNumber (getNextStallNumbers [r] (Some (str "fish")))
     = Num (n + 1) /\
     nextNameNumber (getNextStallNumbers [r] (Some (str " FISH ")))
     = Num (n + 1)) /\
  (forall r, Stalls.type r = str " Fish " ->
     getNextStallNumbers [r] (Some (str "fish")) =
     getNextStallNumbers [r] None).
Proof.
  assert (Hsingle : forall r type n,
            nameNumber (name r) = Some n -> n <= MAX_SAFE_INTEGER ->
            (toLowerCase (trim (Stalls.type r)) = toLowerCase (trim type) ->
             nextNameNumber (getNextStallNumbers [r] (Some type))
             = Num (n + 1)) /\
            (toLowerCase (trim (Stalls.type r)) <> toLowerCase (trim type) ->
             nextNameNumber (getNextStallNumbers [r] (Some type)) = Num 1)).
  { intros r type n Hn Hsafe.
    rewrite (single_record_name_number r (Some type) n Hn Hsafe).
    unfold passesFilter. split; intros Ht.
    - apply jsstring_eqb_eq in Ht. now rewrite Ht.
    - destruct (jsstring_eqb _ _) eqn:E; [|reflexivity].
      apply jsstring_eqb_eq in E. contradiction. }
  split; [|split; [exact Hsingle|split; [|split]]].
  - intros stalls type. rewrite !nextNameNumber_fold.
    now rewrite filter_without_type.
  - apply passesFilter_same. lower_literals. reflexivity.
  - intros r n Ht Hn Hsafe.
    split; apply (Hsingle r _ n Hn Hsafe); rewrite Ht; lower_literals;
      reflexivity.
  - intros r Ht.
    assert (Hp : passesFilter (Some (str "fish")) r = true).
    { unfold passesFilter. rewrite Ht. lower_literals. reflexivity. }
    rewrite !getNextStallNumbers_folds. cbn [filter]. now rewrite Hp.
Qed.

(** C9.  The function is total and its two numbers are at least 1 on every
    collection.  A record whose id contains no [stall-<digits>] leaves the id
    number as it is without the record, and a record whose name contains no
    match of the name pattern leaves the name number as it is without the
    record, wherever the record stands among the others. *)
Theorem non_matching_records_are_inert before r after type :
  below 0 (nextIdNumber (getNextStallNumbers (before ++ r :: after) type)) /\
  below 0 (nextNameNumber (getNextStallNumbers (before ++ r :: after) type)) /\
  ((forall pre ds post, ~ idOccurrence (id r) pre ds post) ->
   nextIdNumber (getNextStallNumbers (before ++ r :: after) type) =
   nextIdNumber (getNextStallNumbers (before ++ after) type)) /\
  ((forall pre ds post, ~ nameOccurrence (name r) pre ds post) ->
   nextNameNumber (getNextStallNumbers (before ++ r :: after) type) =
   nextNameNumber (getNextStallNumbers (before ++ after) type)).
Proof.
  rewrite !nextIdNumber_fold, !nextNameNumber_fold.
  split; [|split; [|split]].
  - apply plus1_pos, fold_Math_max_nonneg.
  - apply plus1_pos, fold_Math_max_nonneg.
  - intros Hno. apply idCapture_None in Hno.
    rewrite !collect_app. cbn [collect]. now rewrite Hno.
  - intros Hno. apply nameCapture_None in Hno.
    rewrite !filter_app. cbn [filter].
    destruct (passesFilter type r); [|reflexivity].
    rewrite !collect_app. cbn [collect]. now rewrite Hno.
Qed.

(** C10.  A type argument that trims to the empty string is a filter like
    any other: exactly the records whose type trims to the empty string
    pass it, the name number is that of those records alone, and on a
    collection holding a record of type ["Fish"] named ["Stall 3"] the result
    differs from the one without a type argument. *)
Theorem blank_type_is_a_filter type :
  trim type = [] ->
  (forall r, passesFilter (Some type) r = true <-> trim (Stalls.type r) = []) /\
  (forall stalls,
     nextNameNumber (getNextStallNumbers stalls (Some type)) =
     nextNameNumber
       (getNextStallNumbers
          (filter (fun r => jsstring_eqb (trim (Stalls.type r)) []) stalls)
          None)) /\
  (forall r, name r = str "Stall 3" -> Stalls.type r = str "Fish" ->
     nextNameNumber (getNextStallNumbers [r] (Some type)) = Num 1 /\
     nextNameNumber (getNextStallNumbers [r] None) = Num 4).
Proof.
  intros Hblank.
  assert (Hpass : forall r, passesFilter (Some type) r = true <->
                            trim (Stalls.type r) = []).
  { intros r. unfold passesFilter.
    rewrite jsstring_eqb_eq, Hblank, toLowerCase_empty. split.
    - intros Hl. destruct (trim (Stalls.type r)) as [|c t] eqn:E;
        [reflexivity|].
      exfalso. apply (toLowerCase_nonempty (c :: t)); [discriminate|exact Hl].
    - intros ->. apply toLowerCase_empty. }
  split; [exact Hpass|split].
  - intros stalls. rewrite !nextNameNumber_fold.
    assert (Hfilter : filter (passesFilter None)
                        (filter (fun r => jsstring_eqb (trim (Stalls.type r)) [])
                                stalls)
                      = filter (passesFilter (Some type)) stalls);
      [|now rewrite Hfilter].
    induction stalls as [|r stalls IH]; [reflexivity|]. cbn [filter].
    assert (Hr : jsstring_eqb (trim (Stalls.type r)) []
                 = passesFilter (Some type) r).
    { destruct (passesFilter (Some type) r) eqn:E.
      - apply jsstring_eqb_eq, Hpass, E.
      - destruct (jsstring_eqb (trim (Stalls.type r)) []) eqn:E';
          [|reflexivity].
        apply jsstring_eqb_eq, Hpass in E'. congruence. }
    rewrite Hr. destruct (passesFilter (Some type) r); cbn [filter passesFilter];
      now rewrite IH.
  - intros r Hn Ht. rewrite !nextNameNumber_fold. cbn [filter].
    assert (Hr : passesFilter (Some type) r = false).
    { destruct (passesFilter (Some type) r) eqn:E; [|reflexivity].
      apply Hpass in E. rewrite Ht in E. discriminate. }
    rewrite Hr. cbn [passesFilter collect]. rewrite Hn. split; reflexivity.
Qed.

End Properties.

(** ** Concrete runs *)

Lemma fish_meat_idsSafe : idsSafe [fishStall; meatStall].
Proof.
  intros r n [<-|[<-|[]]] Hn; vm_compute in Hn; injection Hn as <-;
    vm_compute; discriminate.
Defined.

Lemma fish_meat_namesSafe type : namesSafe type [fishStall; meatStall].
Proof.
  intros r n [<-|[<-|[]]] _ Hn; vm_compute in Hn; injection Hn as <-;
    vm_compute; discriminate.
Defined.

Lemma nextIdNumber_leftmost_max_plus_one_witness :
  idsSafe [fishStall; meatStall] /\
  nextIdNumber (getNextStallNumbers [fishStall; meatStall] None) =
  Num (list_max0 (collect (fun r => idNumber (id r)) [fishStall; meatStall])
       + 1).
Proof.
  split; [exact fish_meat_idsSafe|].
  exact (proj2 (proj2 (nextIdNumber_leftmost_max_plus_one
                         [fishStall; meatStall] None fish_meat_idsSafe))).
Defined.

(** C1, as stated, fails twice: an id that holds [stall-5] after other
    text is counted by the source, although [stall-] is no prefix of it; and
    at 2^53 the sum [max + 1] is rounded back to 2^53. *)
Lemma nextIdNumber_neither_anchored_nor_exact :
  nextIdNumber
    (getNextStallNumbers [mkStall "annex-stall-5" "Stall 1" "Fish"] None)
  <> Num (list_max0
            (collect (fun r => prefixIdNumber (id r))
                     [mkStall "annex-stall-5" "Stall 1" "Fish"]) + 1)
  /\
  nextIdNumber
    (getNextStallNumbers
       [mkStall "stall-9007199254740992" "Stall 1" "Fish"] None)
  <> Num (list_max0
            (collect (fun r => prefixIdNumber (id r))
                     [mkStall "stall-9007199254740992" "Stall 1" "Fish"]) + 1).
Proof. split; vm_compute; discriminate. Qed.

Lemma nextNameNumber_filtered_max_plus_one_witness :
  namesSafe (Some (str "fish")) [fishStall; meatStall] /\
  nextNameNumber
    (getNextStallNumbers [fishStall; meatStall] (Some (str "fish"))) =
  Num (list_max0
         (collect (fun r => nameNumber (name r))
            (filter (passesFilter (Some (str "fish")))
                    [fishStall; meatStall])) + 1).
Proof.
  split; [exact (fish_meat_namesSafe _)|].
  exact (proj2 (proj2 (proj2 (nextNameNumber_filtered_max_plus_one
                                [fishStall; meatStall] (Some (str "fish"))
                                (fish_meat_namesSafe _))))).
Defined.

(** C2, as stated, fails: at 2^53 the sum [max + 1] is rounded back to
    2^53. *)
Lemma nextNameNumber_rounds_beyond_safe_integers :
  nextNameNumber
    (getNextStallNumbers
       [mkStall "stall-1" "Stall 9007199254740992" "Fish"] None)
  <> Num (list_max0
            (collect (fun r => nameNumber (name r))
               (filter (passesFilter None)
                  [mkStall "stall-1" "Stall 9007199254740992" "Fish"])) + 1).
Proof. vm_compute. discriminate. Qed.

Lemma next_numbers_exceed_safe_suffixes_witness :
  (idsSafe [fishStall; meatStall] /\
   idNumber (id meatStall) = Some 7 /\
   below 7 (nextIdNumber
              (getNextStallNumbers [fishStall; meatStall] (Some (str "fish")))))
  /\
  (namesSafe (Some (str "fish")) [fishStall; meatStall] /\
   passesFilter (Some (str "fish")) fishStall = true /\
   nameNumber (name fishStall) = Some 3 /\
   below 3 (nextNameNumber
              (getNextStallNumbers [fishStall; meatStall] (Some (str "fish"))))).
Proof.
  pose proof (next_numbers_exceed_safe_suffixes
                [fishStall; meatStall] (Some (str "fish"))) as [Hid Hname].
  split.
  - split; [exact fish_meat_idsSafe|]. split; [reflexivity|].
    apply (Hid fish_meat_idsSafe meatStall 7); [simpl; auto | reflexivity].
  - split; [exact (fish_meat_namesSafe _)|]. split; [reflexivity|].
    split; [reflexivity|].
    apply (Hname (fish_meat_namesSafe _) fishStall 3);
      [simpl; auto | reflexivity | reflexivity].
Defined.

(** C3, as stated, fails: the id [stall-9007199254740992] carries 2^53 and
    the id number returned is 2^53 as well. *)
Lemma nextIdNumber_not_above_2_53 :
  idNumber (id (mkStall "stall-9007199254740992" "Stall 1" "Fish"))
  = Some 9007199254740992 /\
  ~ below 9007199254740992
      (nextIdNumber
         (getNextStallNumbers
            [mkStall "stall-9007199254740992" "Stall 1" "Fish"] None)).
Proof. split; [reflexivity|]. vm_compute. intros H; discriminate H. Qed.

Lemma fish_and_meat_example_witness :
  getNextStallNumbers [fishStall; meatStall] None =
    {| nextIdNumber := Num 8; nextNameNumber := Num 4 |} /\
  getNextStallNumbers [fishStall; meatStall] (Some (str "fish")) =
    {| nextIdNumber := Num 8; nextNameNumber := Num 4 |} /\
  passesFilter (Some (str "fish")) fishStall = true /\
  passesFilter (Some (str "fish")) meatStall = false /\
  nextNameNumber
    (getNextStallNumbers [fishStall; meatStall] (Some (str "fish"))) =
  nextNameNumber (getNextStallNumbers [fishStall] (Some (str "fish"))).
Proof.
  exact (fish_and_meat_example fishStall meatStall
           eq_refl eq_refl eq_refl eq_refl eq_refl eq_refl).
Defined.

Lemma getNextStallNumbers_order_independent_witness :
  Permutation [fishStall; meatStall] [meatStall; fishStall] /\
  getNextStallNumbers [fishStall; meatStall] (Some (str "meat")) =
  getNextStallNumbers [meatStall; fishStall] (Some (str "meat")).
Proof.
  split; [apply perm_swap|].
  apply getNextStallNumbers_order_independent, perm_swap.
Defined.

Lemma type_filter_trims_and_folds_case_witness :
  Stalls.type (mkStall "stall-4" "Stall 9" " Fish ") = str " Fish " /\
  nameNumber (name (mkStall "stall-4" "Stall 9" " Fish ")) = Some 9 /\
  9 <= MAX_SAFE_INTEGER /\
  nextNameNumber
    (getNextStallNumbers [mkStall "stall-4" "Stall 9" " Fish "]
       (Some (str "fish"))) = Num (9 + 1) /\
  nextNameNumber
    (getNextStallNumbers [mkStall "stall-4" "Stall 9" " Fish "]
       (Some (str " FISH "))) = Num (9 + 1).
Proof.
  assert (Hsafe : 9 <= MAX_SAFE_INTEGER) by (vm_compute; discriminate).
  split; [reflexivity|]. split; [reflexivity|]. split; [exact Hsafe|].
  exact (proj1 (proj2 (proj2 (proj2 type_filter_trims_and_folds_case)))
           (mkStall "stall-4" "Stall 9" " Fish ") 9 eq_refl eq_refl Hsafe).
Defined.

Lemma booth_has_no_id_occurrence :
  forall pre ds post, ~ idOccurrence (str "booth-9") pre ds post.
Proof. apply idCapture_None. reflexivity. Defined.

Lemma annex_has_no_name_occurrence :
  forall pre ds post, ~ nameOccurrence (str "Annex 12") pre ds post.
Proof. apply nameCapture_None. reflexivity. Defined.

Lemma non_matching_records_are_inert_witness :
  (forall pre ds post,
     ~ idOccurrence (id (mkStall "booth-9" "Annex 12" "Fish")) pre ds post) /\
  (forall pre ds post,
     ~ nameOccurrence (name (mkStall "booth-9" "Annex 12" "Fish")) pre ds post)
  /\
  nextIdNumber
    (getNextStallNumbers
       ([fishStall] ++ mkStall "booth-9" "Annex 12" "Fish" :: [meatStall]) None)
  = nextIdNumber (getNextStallNumbers ([fishStall] ++ [meatStall]) None) /\
  nextNameNumber
    (getNextStallNumbers
       ([fishStall] ++ mkStall "booth-9" "Annex 12" "Fish" :: [meatStall]) None)
  = nextNameNumber (getNextStallNumbers ([fishStall] ++ [meatStall]) None).
Proof.
  pose proof (non_matching_records_are_inert [fishStall]
                (mkStall "booth-9" "Annex 12" "Fish") [meatStall] None)
    as (_ & _ & Hid & Hname).
  split; [exact booth_has_no_id_occurrence|].
  split; [exact annex_has_no_name_occurrence|].
  split; [exact (Hid booth_has_no_id_occurrence)
         |exact (Hname annex_has_no_name_occurrence)].
Defined.

Lemma blank_type_is_a_filter_witness :
  trim (str "  ") = [] /\
  nextNameNumber (getNextStallNumbers [fishStall] (Some (str "  "))) = Num 1 /\
  nextNameNumber (getNextStallNumbers [fishStall] None) = Num 4.
Proof.
  split; [reflexivity|].
  exact (proj2 (proj2 (blank_type_is_a_filter (str "  ") eq_refl))
           fishStall eq_refl eq_refl).
Defined.

(** ** Further properties of the allocator and of the display text *)

(** The shape of the rounding above 2^53. *)
Lemma roundToDouble_large n :
  2 ^ 53 <= n ->
  exists e q r (up : bool),
    1 <= e /\ e = Z.log2 n - 52 /\ n = q * 2 ^ e + r /\ 0 <= r < 2 ^ e /\
    2 ^ 52 <= q < 2 ^ 53 /\
    (up = true -> 2 ^ (e - 1) <= r) /\
    (up = false -> r <= 2 ^ (e - 1)) /\
    (r = 2 ^ (e - 1) -> up = Z.odd q) /\
    roundToDouble n =
      if 2 ^ 1024 <=? (q + if up then 1 else 0) * 2 ^ e then Infinity
      else Num ((q + if up then 1 else 0) * 2 ^ e).
Proof.
  intros Hn.
  pose proof (Z.log2_spec n ltac:(lia)) as [Hlo Hhi].
  assert (Hlog : 53 <= Z.log2 n) by (apply Z.log2_le_pow2; lia).
  set (e := Z.log2 n - 52) in *.
  assert (He : 1 <= e) by lia.
  assert (Hpe : 0 < 2 ^ e) by (apply Z.pow_pos_nonneg; lia).
  pose proof (Z.div_mod n (2 ^ e) ltac:(lia)) as Hdm.
  pose proof (Z.mod_pos_bound n (2 ^ e) Hpe) as Hr.
  set (q := n / 2 ^ e) in *. set (r := n mod 2 ^ e) in *.
  assert (Hsplit : 2 ^ Z.log2 n = 2 ^ 52 * 2 ^ e).
  { rewrite <- Z.pow_add_r by lia. f_equal. lia. }
  assert (Hsplit' : 2 ^ Z.succ (Z.log2 n) = 2 ^ 53 * 2 ^ e).
  { rewrite <- Z.pow_add_r by lia. f_equal. lia. }
  assert (Hq : 2 ^ 52 <= q < 2 ^ 53).
  { split.
    - apply Z.div_le_lower_bound; lia.
    - apply Z.div_lt_upper_bound; lia. }
  exists e, q, r,
    ((2 ^ (e - 1) <? r) || ((r =? 2 ^ (e - 1)) && Z.odd q)).
  split; [lia|]. split; [reflexivity|]. split; [lia|]. split; [lia|].
  split; [lia|]. split; [|split; [|split]].
  - intros Hup. apply orb_true_iff in Hup as [H|H].
    + apply Z.ltb_lt in H. lia.
    + apply andb_true_iff in H as [H _]. apply Z.eqb_eq in H. lia.
  - intros Hup. apply orb_false_iff in Hup as [H _].
    apply Z.ltb_ge in H. lia.
  - intros ->. rewrite Z.ltb_irrefl, Z.eqb_refl. reflexivity.
  - unfold roundToDouble.
    destruct (n <? 2 ^ 53) eqn:E; [apply Z.ltb_lt in E; lia|].
    cbv zeta. fold e. rewrite Z.shiftr_div_pow2 by lia. fold q.
    replace (n - Z.shiftl q e) with r
      by (rewrite Z.shiftl_mul_pow2 by lia; lia).
    rewrite Z.shiftl_mul_pow2 by lia.
    destruct ((2 ^ (e - 1) <? r) || ((r =? 2 ^ (e - 1)) && Z.odd q));
      rewrite ?Z.add_0_r; reflexivity.
Qed.

Lemma le_number_refl x : le_number x x.
Proof. destruct x; simpl; [lia | exact I]. Qed.

Lemma le_number_top x : le_number x Infinity.
Proof. destruct x; exact I. Qed.

Lemma le_number_trans x y z : le_number x y -> le_number y z -> le_number x z.
Proof. destruct x, y, z; simpl; try tauto; lia. Qed.

Lemma le_number_antisym x y : le_number x y -> le_number y x -> x = y.
Proof. destruct x, y; simpl; try tauto. intros. f_equal. lia. Qed.

Lemma pow2_split a b : 0 <= a -> 0 <= b -> 2 ^ (a + b) = 2 ^ a * 2 ^ b.
Proof. intros. now apply Z.pow_add_r. Qed.

(** Rounding to the nearest double is monotone. *)
Lemma roundToDouble_mono n m :
  n <= m -> le_number (roundToDouble n) (roundToDouble m).
Proof.
  intros Hnm.
  destruct (Z.lt_ge_cases m (2 ^ 53)) as [Hm|Hm].
  { rewrite !roundToDouble_exact by lia. exact Hnm. }
  destruct (roundToDouble_large m Hm)
    as (em & qm & rm & um & Hem & Hlm & Hdm & Hrm & Hqm & Hu1m & Hu0m & Htm & ->).
  assert (Hpm : 0 < 2 ^ em) by (apply Z.pow_pos_nonneg; lia).
  assert (Hvm : qm * 2 ^ em <= (qm + if um then 1 else 0) * 2 ^ em).
  { apply Z.mul_le_mono_nonneg_r; [lia | destruct um; lia]. }
  destruct (Z.lt_ge_cases n (2 ^ 53)) as [Hn|Hn].
  { rewrite (roundToDouble_exact n) by lia.
    destruct (2 ^ 1024 <=? _); [exact I|]. cbn [le_number].
    assert (2 ^ 53 <= qm * 2 ^ em); [|lia].
    change (2 ^ 53) with (2 ^ 52 * 2 ^ 1).
    apply Z.mul_le_mono_nonneg; try lia.
    apply Z.pow_le_mono_r; lia. }
  destruct (roundToDouble_large n Hn)
    as (en & qn & rn & un & Hen & Hln & Hdn & Hrn & Hqn & Hu1n & Hu0n & Htn & ->).
  assert (Hpn : 0 < 2 ^ en) by (apply Z.pow_pos_nonneg; lia).
  assert (Hle : (qn + if un then 1 else 0) * 2 ^ en
                <= (qm + if um then 1 else 0) * 2 ^ em).
  { assert (Hlog : Z.log2 n <= Z.log2 m) by (apply Z.log2_le_mono; lia).
    destruct (Z.eq_dec en em) as [Heq|Hneq].
    - subst em. rewrite <- Heq in *. clear Heq.
      apply Z.mul_le_mono_nonneg_r; [lia|].
      assert (Hq : qn <= qm) by nia.
      destruct (Z.eq_dec qn qm) as [->|Hq']; [|destruct un, um; lia].
      destruct un, um; try lia.
      specialize (Hu1n eq_refl). specialize (Hu0m eq_refl).
      assert (rn = rm) by lia. subst rm.
      assert (rn = 2 ^ (en - 1)) as Hr by lia.
      rewrite <- (Htn Hr) in Htm. specialize (Htm Hr). discriminate.
    - assert (Hlt : en + 1 <= em) by lia.
      transitivity (2 ^ 53 * 2 ^ en).
      + apply Z.mul_le_mono_nonneg_r; [lia | destruct un; lia].
      + transitivity (qm * 2 ^ em); [|exact Hvm].
        transitivity (2 ^ 52 * 2 ^ (en + 1)).
        * rewrite pow2_split by lia. change (2 ^ 53) with (2 ^ 52 * 2 ^ 1). lia.
        * apply Z.mul_le_mono_nonneg; try lia.
          apply Z.pow_le_mono_r; lia. }
  destruct (2 ^ 1024 <=? (qm + _) * _) eqn:Em; [apply le_number_top|].
  apply Z.leb_gt in Em.
  destruct (2 ^ 1024 <=? (qn + _) * _) eqn:En.
  - apply Z.leb_le in En. lia.
  - exact Hle.
Qed.

Lemma roundToDouble_isDouble n : isDouble (roundToDouble n).
Proof.
  destruct (Z.lt_ge_cases n (2 ^ 53)) as [Hn|Hn].
  { rewrite roundToDouble_exact by lia. cbn [isDouble].
    apply roundToDouble_exact. lia. }
  destruct (roundToDouble_large n Hn)
    as (e & q & r & up & He & Hl & Hd & Hr & Hq & Hu1 & Hu0 & Ht & ->).
  destruct (2 ^ 1024 <=? _) eqn:Ev; [exact I|]. cbn [isDouble].
  apply Z.leb_gt in Ev.
  set (q' := q + if up then 1 else 0) in *.
  assert (Hq' : 2 ^ 52 <= q' <= 2 ^ 53) by (unfold q'; destruct up; lia).
  assert (Hp : 0 < 2 ^ e) by (apply Z.pow_pos_nonneg; lia).
  assert (Hbig : 2 ^ 53 <= q' * 2 ^ e).
  { change (2 ^ 53) with (2 ^ 52 * 2 ^ 1).
    apply Z.mul_le_mono_nonneg; try lia. apply Z.pow_le_mono_r; lia. }
  destruct (roundToDouble_large _ Hbig)
    as (e2 & q2 & r2 & up2 & He2 & Hl2 & Hd2 & Hr2 & Hq2 & Hu12 & Hu02 & Ht2 & ->).
  assert (Hp2 : 0 < 2 ^ e2) by (apply Z.pow_pos_nonneg; lia).
  assert (Hexact : q2 * 2 ^ e2 = q' * 2 ^ e /\ r2 = 0).
  { destruct (Z.eq_dec q' (2 ^ 53)) as [Hmax|Hmax].
    - assert (Hlog : Z.log2 (q' * 2 ^ e) = 53 + e).
      { apply Z.log2_unique; [lia|].
        rewrite Hmax, <- !pow2_split by lia. split; [lia|].
        apply Z.pow_lt_mono_r; lia. }
      assert (Hpow : 2 ^ e2 = 2 * 2 ^ e).
      { replace e2 with (1 + e) by lia. now rewrite pow2_split by lia. }
      rewrite Hpow in *. generalize dependent (2 ^ e). intros P; intros.
      assert (r2 = (2 ^ 52 - q2) * (2 * P)) by lia.
      assert (q2 = 2 ^ 52) by nia. lia.
    - assert (Hlog : Z.log2 (q' * 2 ^ e) = 52 + e).
      { apply Z.log2_unique; [lia|].
        replace (Z.succ (52 + e)) with (53 + e) by lia.
        rewrite !pow2_split by lia. split; nia. }
      assert (Hpow : e2 = e) by lia. rewrite Hpow in *.
      generalize dependent (2 ^ e). intros P; intros.
      assert (r2 = (q' - q2) * P) by lia.
      assert (q2 = q') by nia. lia. }
  destruct Hexact as [Hqe ->].
  assert (up2 = false) as ->.
  { destruct up2; [|reflexivity]. specialize (Hu12 eq_refl).
    assert (0 < 2 ^ (e2 - 1)) by (apply Z.pow_pos_nonneg; lia). lia. }
  rewrite Z.add_0_r, Hqe.
  destruct (2 ^ 1024 <=? q' * 2 ^ e) eqn:E; [apply Z.leb_le in E; lia|].
  reflexivity.
Qed.

(** The rounding overflows exactly from half an ulp above the largest
    double. *)
Lemma roundToDouble_overflow n :
  roundToDouble n = Infinity <-> 2 ^ 1024 - 2 ^ 970 <= n.
Proof.
  destruct (Z.lt_ge_cases n (2 ^ 53)) as [Hn|Hn].
  { rewrite roundToDouble_exact by lia. split; [discriminate|].
    intros Hbig. exfalso. revert Hbig. apply Z.lt_nge.
    eapply Z.lt_le_trans; [exact Hn|]. apply Z.leb_le. vm_compute. reflexivity. }
  destruct (roundToDouble_large n Hn)
    as (e & q & r & up & He & Hl & Hd & Hr & Hq & Hu1 & Hu0 & Ht & ->).
  assert (Hiff : 2 ^ 1024 <= (q + if up then 1 else 0) * 2 ^ e
                 <-> 2 ^ 1024 - 2 ^ 970 <= n).
  { assert (Hcases : e <= 970 \/ e = 971 \/ 972 <= e) by lia.
    destruct Hcases as [Hlow|[->|Hhigh]].
    - assert (Hp : 0 < 2 ^ e <= 2 ^ 970).
      { split; [apply Z.pow_pos_nonneg; lia | apply Z.pow_le_mono_r; lia]. }
      assert (Hv : (q + if up then 1 else 0) * 2 ^ e <= 2 ^ 53 * 2 ^ 970).
      { apply Z.mul_le_mono_nonneg; destruct up; lia. }
      assert (Hn' : n < 2 ^ 53 * 2 ^ 970) by nia.
      change (2 ^ 53 * 2 ^ 970) with (2 ^ 1023) in *.
      assert (2 ^ 1023 < 2 ^ 1024 - 2 ^ 970) by (vm_compute; reflexivity).
      assert (2 ^ 1023 < 2 ^ 1024) by (vm_compute; reflexivity).
      lia.
    - change (971 - 1) with 970 in *.
      assert (Hodd : q = 2 ^ 53 - 1 -> Z.odd q = true) by (intros ->; reflexivity).
      assert (Hc1 : 2 ^ 1024 = 2 ^ 53 * 2 ^ 971) by reflexivity.
      assert (Hc2 : 2 ^ 971 = 2 * 2 ^ 970) by reflexivity.
      assert (Hc3 : 0 < 2 ^ 970) by reflexivity.
      rewrite Hc1, Hc2 in *. generalize dependent (2 ^ 970). intros P; intros.
      destruct up.
      + specialize (Hu1 eq_refl). split; intros; nia.
      + specialize (Hu0 eq_refl). split; intros H.
        * nia.
        * exfalso. assert (Hqmax : q = 2 ^ 53 - 1) by nia.
          assert (Hhalf : r = P) by nia.
          specialize (Ht Hhalf). rewrite (Hodd Hqmax) in Ht.
          discriminate Ht.
    - assert (Hp : 2 ^ 972 <= 2 ^ e) by (apply Z.pow_le_mono_r; lia).
      assert (Hv : 2 ^ 52 * 2 ^ 972 <= q * 2 ^ e)
        by (apply Z.mul_le_mono_nonneg; lia).
      change (2 ^ 52 * 2 ^ 972) with (2 ^ 1024) in *.
      assert (0 < 2 ^ 970) by reflexivity.
      split; intros _; [lia|].
      transitivity (q * 2 ^ e); [lia|].
      apply Z.mul_le_mono_nonneg_r; destruct up; lia. }
  destruct (2 ^ 1024 <=? _) eqn:E.
  - apply Z.leb_le in E. split; [intros _; now apply Hiff | reflexivity].
  - apply Z.leb_gt in E. split; [discriminate|].
    intros H. apply Hiff in H. lia.
Qed.

Lemma Math_max_isDouble a b : isDouble a -> isDouble b -> isDouble (Math_max a b).
Proof.
  destruct a as [x|], b as [y|]; simpl; trivial.
  intros Hx Hy. destruct (Z.max_spec x y) as [[_ ->]|[_ ->]]; assumption.
Qed.

Lemma fold_Math_max_isDouble l init :
  Forall isDouble l -> isDouble init -> isDouble (fold_left Math_max l init).
Proof.
  intros Hl. revert init. induction Hl as [|x l Hx _ IH]; intros init Hi; simpl.
  - exact Hi.
  - apply IH. now apply Math_max_isDouble.
Qed.

Lemma Number_isDouble ds : isDouble (Number ds).
Proof. apply roundToDouble_isDouble. Qed.

Lemma captured_fold_isDouble caps :
  isDouble (fold_left Math_max (map Number caps) (Num 0)).
Proof.
  apply fold_Math_max_isDouble; [|reflexivity].
  apply Forall_map, Forall_forall. intros ds _. apply Number_isDouble.
Qed.

Lemma Math_max_le_l a b : le_number a (Math_max a b).
Proof. destruct a, b; simpl; trivial; lia. Qed.

Lemma Math_max_le_r a b : le_number b (Math_max a b).
Proof. destruct a, b; simpl; trivial; lia. Qed.

Lemma Math_max_lub a b u : le_number a u -> le_number b u -> le_number (Math_max a b) u.
Proof. destruct a, b, u; simpl; trivial; try tauto; lia. Qed.

Lemma fold_Math_max_upper l init :
  le_number init (fold_left Math_max l init) /\
  forall x, In x l -> le_number x (fold_left Math_max l init).
Proof.
  revert init. induction l as [|y l IH]; intros init; simpl.
  - split; [apply le_number_refl | tauto].
  - destruct (IH (Math_max init y)) as [Hi Hl]. split.
    + eapply le_number_trans; [apply Math_max_le_l | exact Hi].
    + intros x [->|Hx]; [|now apply Hl].
      eapply le_number_trans; [apply Math_max_le_r | exact Hi].
Qed.

Lemma fold_Math_max_lub l init u :
  le_number init u -> (forall x, In x l -> le_number x u) ->
  le_number (fold_left Math_max l init) u.
Proof.
  revert init. induction l as [|y l IH]; intros init Hi Hl; simpl; [exact Hi|].
  apply IH.
  - apply Math_max_lub; [exact Hi | apply Hl; now left].
  - intros x Hx. apply Hl. now right.
Qed.

Lemma fold_Math_max_incl l l' init :
  (forall x, In x l -> In x l') ->
  le_number (fold_left Math_max l init) (fold_left Math_max l' init).
Proof.
  intros Hincl. destruct (fold_Math_max_upper l' init) as [Hi Hl].
  apply fold_Math_max_lub; [exact Hi|]. intros x Hx. apply Hl, Hincl, Hx.
Qed.

Lemma fold_Math_max_Infinity l init :
  fold_left Math_max l init = Infinity <-> init = Infinity \/ In Infinity l.
Proof.
  revert init. induction l as [|y l IH]; intros init; simpl; [tauto|].
  rewrite IH. destruct init, y; simpl; split;
    intros [H|H]; try discriminate; auto.
  destruct H as [H|H]; [discriminate | auto].
Qed.

Lemma plus1_mono x y : le_number x y -> le_number (plus1 x) (plus1 y).
Proof.
  destruct x as [a|], y as [b|]; cbn [le_number plus1]; try tauto.
  - intros Hab. apply roundToDouble_mono. lia.
  - intros _. apply le_number_top.
Qed.

Lemma plus1_above x : isDouble x -> le_number x (plus1 x).
Proof.
  destruct x as [z|]; cbn [isDouble plus1]; [|trivial].
  intros Hz. rewrite <- Hz at 1. apply roundToDouble_mono. lia.
Qed.

Lemma plus1_finite z : isDouble (Num z) -> plus1 (Num z) <> Infinity.
Proof.
  cbn [isDouble plus1]. intros Hz Hinf.
  apply roundToDouble_overflow in Hinf.
  assert (Hlt : z < 2 ^ 1024 - 2 ^ 970).
  { apply Z.nle_gt. intros Hge. apply roundToDouble_overflow in Hge. congruence. }
  assert (z = 2 ^ 1024 - 2 ^ 970 - 1) as -> by lia.
  vm_compute in Hz. discriminate Hz.
Qed.

Lemma plus1_Infinity x : isDouble x -> plus1 x = Infinity <-> x = Infinity.
Proof.
  destruct x as [z|]; [|tauto]. intros Hz. split; [|discriminate].
  intros H. now apply plus1_finite in H.
Qed.

(** A result within the safe range comes from a maximum within the safe
    range, and is one more than it. *)
Lemma plus1_safe_inv x v :
  isDouble x -> plus1 x = Num v -> v <= MAX_SAFE_INTEGER ->
  exists m, x = Num m /\ v = m + 1.
Proof.
  unfold MAX_SAFE_INTEGER. destruct x as [m|]; [|discriminate].
  intros Hm Hv Hsafe. exists m. split; [reflexivity|].
  destruct (Z.lt_ge_cases m (2 ^ 53)) as [Hlt|Hge].
  - cbn [plus1] in Hv. rewrite roundToDouble_exact in Hv by lia. congruence.
  - exfalso. pose proof (plus1_above (Num m) Hm) as Hle.
    rewrite Hv in Hle. cbn [le_number] in Hle. lia.
Qed.

Lemma Number_safe_inv ds m :
  le_number (Number ds) (Num m) -> m <= MAX_SAFE_INTEGER ->
  Number ds = Num (digitsValue ds) /\ digitsValue ds <= m.
Proof.
  unfold MAX_SAFE_INTEGER, Number. intros Hle Hm.
  destruct (Z.lt_ge_cases (digitsValue ds) (2 ^ 53)) as [Hlt|Hge].
  - rewrite roundToDouble_exact in * by lia. auto.
  - exfalso. pose proof (roundToDouble_mono _ _ Hge) as Hmono.
    rewrite (roundToDouble_exact (2 ^ 53)) in Hmono by lia.
    pose proof (le_number_trans _ _ _ Hmono Hle) as H. cbn [le_number] in H. lia.
Qed.

Lemma list_max0_lub l b : 0 <= b -> (forall x, In x l -> x <= b) -> list_max0 l <= b.
Proof.
  intros Hb. induction l as [|y l IH]; simpl; intros Hl; [exact Hb|].
  apply Z.max_lub; [apply Hl; now left | apply IH; intros; apply Hl; now right].
Qed.

Lemma in_captured f (l : list StallRecord) x :
  In x (map Number (collect f l)) <->
  exists r ds, In r l /\ f r = Some ds /\ x = Number ds.
Proof.
  rewrite in_map_iff. split.
  - intros (ds & <- & Hin). apply in_collect in Hin as (r & Hr & Hf).
    exists r, ds. auto.
  - intros (r & ds & Hr & Hf & ->). exists ds. split; [reflexivity|].
    apply in_collect. eauto.
Qed.

Lemma onePastHighest_mono f l l' :
  (forall r, In r l -> In r l') ->
  le_number (onePastHighest f l) (onePastHighest f l').
Proof.
  intros Hincl. apply plus1_mono, fold_Math_max_incl. intros x Hx.
  apply in_captured in Hx as (r & ds & Hr & Hf & ->).
  apply in_captured. exists r, ds. auto.
Qed.

Lemma onePastHighest_bound f l r ds :
  In r l -> f r = Some ds -> le_number (Number ds) (onePastHighest f l).
Proof.
  intros Hr Hf. unfold onePastHighest.
  eapply le_number_trans; [|apply plus1_above, captured_fold_isDouble].
  apply fold_Math_max_upper, in_captured. exists r, ds. auto.
Qed.

Lemma onePastHighest_check f l v :
  onePastHighest f l = Num v -> v <= MAX_SAFE_INTEGER ->
  forall r ds, In r l -> f r = Some ds -> digitsValue ds < v.
Proof.
  unfold onePastHighest. intros Hv Hsafe r ds Hr Hf.
  destruct (plus1_safe_inv _ _ (captured_fold_isDouble _) Hv Hsafe)
    as (m & Hm & ->).
  assert (Hle : le_number (Number ds) (Num m)).
  { rewrite <- Hm. apply fold_Math_max_upper, in_captured.
    exists r, ds. auto. }
  destruct (Number_safe_inv ds m Hle ltac:(lia)) as [_ H]. lia.
Qed.

Lemma onePastHighest_Infinity f l :
  onePastHighest f l = Infinity <->
  exists r ds, In r l /\ f r = Some ds /\ overflowThreshold <= digitsValue ds.
Proof.
  unfold onePastHighest, overflowThreshold.
  rewrite (plus1_Infinity _ (captured_fold_isDouble _)),
    fold_Math_max_Infinity, in_captured.
  split.
  - intros [H|(r & ds & Hr & Hf & Hinf)]; [discriminate|].
    symmetry in Hinf. apply roundToDouble_overflow in Hinf.
    exists r, ds. auto.
  - intros (r & ds & Hr & Hf & Hbig). right. exists r, ds.
    repeat split; auto. symmetry. now apply roundToDouble_overflow.
Qed.

Lemma onePastHighest_successor f before r after ds :
  onePastHighest f (before ++ after) = Num (digitsValue ds) ->
  digitsValue ds <= MAX_SAFE_INTEGER ->
  f r = Some ds ->
  onePastHighest f (before ++ r :: after) = Num (digitsValue ds + 1).
Proof.
  intros Hold Hsafe Hf.
  pose proof (onePastHighest_check _ _ _ Hold Hsafe) as Hbelow.
  assert (Hall : forall r' n, In r' (before ++ r :: after) ->
                 option_map digitsValue (f r') = Some n -> n <= digitsValue ds).
  { intros r' n Hin Hn. destruct (f r') as [ds'|] eqn:Hf'; [|discriminate].
    injection Hn as <-.
    apply in_app_or in Hin as [Hin|[<-|Hin]].
    - apply Z.lt_le_incl, (Hbelow r'); [apply in_or_app; auto | assumption].
    - assert (ds' = ds) by congruence. subst. lia.
    - apply Z.lt_le_incl, (Hbelow r'); [apply in_or_app; auto | assumption]. }
  unfold onePastHighest. rewrite plus1_fold_exact.
  - f_equal. f_equal. apply Z.le_antisymm.
    + apply list_max0_lub.
      * assert (0 < digitsValue ds); [|lia].
        assert (Hpos : below 0 (onePastHighest f (before ++ after)))
          by apply plus1_pos, fold_Math_max_nonneg.
        now rewrite Hold in Hpos.
      * intros x Hx. apply in_collect in Hx as (r' & Hr' & Hx).
        now apply (Hall r').
    + apply list_max0_upper, in_collect. exists r.
      split; [apply in_or_app; simpl; auto | now rewrite Hf].
  - intros r' n Hin Hn. specialize (Hall r' n Hin Hn). lia.
Qed.

Section MoreProperties.
Context `{UnicodeCaseMapping}.

Lemma nextIdNumber_onePastHighest stalls type :
  nextIdNumber (getNextStallNumbers stalls type) =
  onePastHighest (fun r => idCapture (id r)) stalls.
Proof. apply nextIdNumber_fold. Qed.

Lemma nextNameNumber_onePastHighest stalls type :
  nextNameNumber (getNextStallNumbers stalls type) =
  onePastHighest (fun r => nameCapture (name r))
                 (filter (passesFilter type) stalls).
Proof. apply nextNameNumber_fold. Qed.

Lemma passesFilter_false type r :
  passesFilter (Some type) r = false <->
  toLowerCase (trim (Stalls.type r)) <> toLowerCase (trim type).
Proof.
  unfold passesFilter. rewrite <- jsstring_eqb_eq.
  destruct (jsstring_eqb _ _); split; congruence.
Qed.

(** X1.  Records added to a collection never lower either number: when
    every record of [stalls] is also in [stalls'], each number for [stalls]
    is at most the one for [stalls']. *)
Theorem more_records_never_lower_the_numbers stalls stalls' type :
  (forall r, In r stalls -> In r stalls') ->
  le_number (nextIdNumber (getNextStallNumbers stalls type))
            (nextIdNumber (getNextStallNumbers stalls' type)) /\
  le_number (nextNameNumber (getNextStallNumbers stalls type))
            (nextNameNumber (getNextStallNumbers stalls' type)).
Proof.
  intros Hincl.
  rewrite !nextIdNumber_onePastHighest, !nextNameNumber_onePastHighest.
  split; apply onePastHighest_mono; [exact Hincl|].
  intros r Hr. apply filter_In in Hr as [Hr Hp]. apply filter_In. auto.
Qed.

(** X2.  The result depends only on which records are present: two
    collections with the same records, in any order and with any
    repetitions, give the same two numbers. *)
Theorem same_records_same_numbers stalls stalls' type :
  (forall r, In r stalls <-> In r stalls') ->
  getNextStallNumbers stalls type = getNextStallNumbers stalls' type.
Proof.
  intros Hsame.
  assert (Hfilter : forall l l' : list StallRecord,
            (forall r, In r l -> In r l') ->
            forall r, In r (filter (passesFilter type) l) ->
                      In r (filter (passesFilter type) l')).
  { intros l l' Hl r Hr. apply filter_In in Hr as [Hr Hp].
    apply filter_In. auto. }
  rewrite !getNextStallNumbers_folds.
  f_equal; apply le_number_antisym;
    apply (onePastHighest_mono _ _ _);
    try apply Hfilter; intros r Hr; now apply Hsame.
Qed.

(** X3.  The type filter scopes the name number: a record whose normalised
    type differs from the normalised type argument changes nothing, wherever
    it stands, and the name number under a filter never exceeds the name
    number without one. *)
Theorem type_filter_scopes_the_name_number type :
  (forall before r after,
     toLowerCase (trim (Stalls.type r)) <> toLowerCase (trim type) ->
     nextNameNumber (getNextStallNumbers (before ++ r :: after) (Some type)) =
     nextNameNumber (getNextStallNumbers (before ++ after) (Some type))) /\
  (forall stalls,
     le_number (nextNameNumber (getNextStallNumbers stalls (Some type)))
               (nextNameNumber (getNextStallNumbers stalls None))).
Proof.
  split.
  - intros before r after Hdiff. apply passesFilter_false in Hdiff.
    rewrite !nextNameNumber_onePastHighest, !filter_app. cbn [filter].
    now rewrite Hdiff.
  - intros stalls. rewrite !nextNameNumber_onePastHighest.
    apply onePastHighest_mono. intros r Hr.
    apply filter_In in Hr as [Hr _]. apply filter_In. auto.
Qed.

(** X4.  On every input each number is at least the double value of every
    suffix it counted.  A returned number within the safe range (at most
    2^53 - 1) is moreover strictly greater than every integer it counted, so
    a caller can check the result instead of the records. *)
Theorem numbers_bound_the_counted_suffixes stalls type :
  (forall r ds, In r stalls -> idCapture (id r) = Some ds ->
     le_number (Number ds) (nextIdNumber (getNextStallNumbers stalls type))) /\
  (forall r ds, In r stalls -> passesFilter type r = true ->
     nameCapture (name r) = Some ds ->
     le_number (Number ds) (nextNameNumber (getNextStallNumbers stalls type)))
  /\
  (forall v, nextIdNumber (getNextStallNumbers stalls type) = Num v ->
     v <= MAX_SAFE_INTEGER ->
     forall r n, In r stalls -> idNumber (id r) = Some n -> n < v) /\
  (forall v, nextNameNumber (getNextStallNumbers stalls type) = Num v ->
     v <= MAX_SAFE_INTEGER ->
     forall r n, In r stalls -> passesFilter type r = true ->
                 nameNumber (name r) = Some n -> n < v).
Proof.
  rewrite nextIdNumber_onePastHighest, nextNameNumber_onePastHighest.
  split; [|split; [|split]].
  - intros r ds Hr Hc.
    now apply (onePastHighest_bound (fun r => idCapture (id r)) stalls r).
  - intros r ds Hr Hp Hc.
    apply (onePastHighest_bound (fun r => nameCapture (name r)) _ r);
      [apply filter_In; auto | assumption].
  - intros v Hv Hsafe r n Hr Hn. unfold idNumber in Hn.
    destruct (idCapture (id r)) as [ds|] eqn:Hc; [|discriminate].
    injection Hn as <-.
    now apply (onePastHighest_check _ _ _ Hv Hsafe r).
  - intros v Hv Hsafe r n Hr Hp Hn. unfold nameNumber in Hn.
    destruct (nameCapture (name r)) as [ds|] eqn:Hc; [|discriminate].
    injection Hn as <-.
    apply (onePastHighest_check _ _ _ Hv Hsafe r);
      [apply filter_In; auto | assumption].
Qed.

(** X5.  Allocation is sequential within the safe range: when the number
    returned for a collection is [N], at most 2^53 - 1, then after a record
    carrying [N] is added anywhere the number returned is [N + 1]; for the
    name number the added record has to pass the type filter. *)
Theorem allocated_number_is_followed_by_its_successor
    before r after type N :
  N <= MAX_SAFE_INTEGER ->
  (nextIdNumber (getNextStallNumbers (before ++ after) type) = Num N ->
   idNumber (id r) = Some N ->
   nextIdNumber (getNextStallNumbers (before ++ r :: after) type)
   = Num (N + 1)) /\
  (nextNameNumber (getNextStallNumbers (before ++ after) type) = Num N ->
   passesFilter type r = true -> nameNumber (name r) = Some N ->
   nextNameNumber (getNextStallNumbers (before ++ r :: after) type)
   = Num (N + 1)).
Proof.
  intros Hsafe.
  rewrite !nextIdNumber_onePastHighest, !nextNameNumber_onePastHighest.
  split.
  - intros Hold Hn. unfold idNumber in Hn.
    destruct (idCapture (id r)) as [ds|] eqn:Hc; [|discriminate].
    injection Hn as <-.
    now apply (onePastHighest_successor (fun r => idCapture (id r))).
  - intros Hold Hp Hn. unfold nameNumber in Hn.
    destruct (nameCapture (name r)) as [ds|] eqn:Hc; [|discriminate].
    injection Hn as <-.
    rewrite filter_app in *. cbn [filter]. rewrite Hp.
    now apply (onePastHighest_successor (fun r => nameCapture (name r))).
Qed.

(** X6.  A number is [Infinity] exactly when a counted record carries an
    integer of at least 2^1024 - 2^970, the least integer that rounds to
    [Infinity]; otherwise it is a finite integer. *)
Theorem numbers_are_infinite_only_on_overflow stalls type :
  (nextIdNumber (getNextStallNumbers stalls type) = Infinity <->
   exists r n, In r stalls /\ idNumber (id r) = Some n /\
               overflowThreshold <= n) /\
  (nextNameNumber (getNextStallNumbers stalls type) = Infinity <->
   exists r n, In r stalls /\ passesFilter type r = true /\
               nameNumber (name r) = Some n /\ overflowThreshold <= n).
Proof.
  rewrite nextIdNumber_onePastHighest, nextNameNumber_onePastHighest,
    !onePastHighest_Infinity.
  unfold idNumber, nameNumber. split; split.
  - intros (r & ds & Hr & Hc & Hbig). exists r, (digitsValue ds).
    rewrite Hc. repeat split; auto.
  - intros (r & n & Hr & Hn & Hbig).
    destruct (idCapture (id r)) as [ds|] eqn:Hc; [|discriminate].
    injection Hn as <-. exists r, ds. repeat split; auto.
  - intros (r & ds & Hr & Hc & Hbig). apply filter_In in Hr as [Hr Hp].
    exists r, (digitsValue ds). rewrite Hc. repeat split; auto.
  - intros (r & n & Hr & Hp & Hn & Hbig).
    destruct (nameCapture (name r)) as [ds|] eqn:Hc; [|discriminate].
    injection Hn as <-. exists r, ds.
    split; [apply filter_In; auto | split; auto].
Qed.

End MoreProperties.

(** X7.  The display text of a stall is its name alone exactly when the
    stall has no vendor; with a vendor it is the name, [" - "] and the
    vendor, three code units longer than the two together. *)
Theorem formatStallDisplay_appends_the_vendor stall :
  (formatStallDisplay stall = name stall <-> vendor stall = []) /\
  (vendor stall <> [] ->
   formatStallDisplay stall = name stall ++ str " - " ++ vendor stall /\
   List.length (formatStallDisplay stall)
   = (List.length (name stall) + 3 + List.length (vendor stall))%nat).
Proof.
  unfold formatStallDisplay. split.
  - destruct (vendor stall) as [|c v] eqn:Hv.
    + split; [reflexivity | intros _; apply app_nil_r].
    + split; [|discriminate]. intros Heq.
      apply (f_equal (@List.length N)) in Heq.
      rewrite !length_app in Heq. simpl in Heq. lia.
  - destruct (vendor stall) as [|c v] eqn:Hv; [congruence|]. intros _.
    split; [reflexivity|]. rewrite !length_app. simpl. lia.
Qed.

(** X8.  The display text does not tell name and vendor apart: a stall
    without vendor whose name is another stall's name, [" - "] and that
    stall's vendor is displayed exactly like that other stall. *)
Theorem formatStallDisplay_is_ambiguous stall other :
  vendor stall = [] -> vendor other <> [] ->
  name stall = name other ++ str " - " ++ vendor other ->
  formatStallDisplay stall = formatStallDisplay other /\
  name stall <> name other.
Proof.
  intros Hnone Hsome Hname. split.
  - unfold formatStallDisplay. rewrite Hnone, Hname, app_nil_r.
    destruct (vendor other); [congruence | reflexivity].
  - rewrite Hname. intros Heq.
    apply (f_equal (@List.length N)) in Heq.
    rewrite !length_app in Heq. simpl in Heq. lia.
Qed.

Section TypeOptions.
Context `{UnicodeCaseMapping}.

Ltac lower_options :=
  repeat match goal with
         | |- context [toLowerCase ?s] =>
             rewrite (toLowerCase_basic_latin s) by reflexivity
         end.

Lemma base_type_passes_its_own_filter a b r :
  In a BASE_TYPE_OPTIONS -> In b BASE_TYPE_OPTIONS -> Stalls.type r = a ->
  (passesFilter (Some b) r = true <-> a = b).
Proof.
  intros Ha Hb Ht. unfold passesFilter. rewrite Ht. clear Ht.
  unfold BASE_TYPE_OPTIONS in Ha, Hb. cbn [In] in Ha, Hb.
  repeat (destruct Ha as [<-|Ha]; [|]); try contradiction;
    repeat (destruct Hb as [<-|Hb]; [|]); try contradiction;
    lower_options; vm_compute; split; intros Heq;
    try reflexivity; discriminate Heq.
Qed.

Lemma base_type_filter_is_equality b r :
  In b BASE_TYPE_OPTIONS -> In (Stalls.type r) BASE_TYPE_OPTIONS ->
  passesFilter (Some b) r = jsstring_eqb (Stalls.type r) b.
Proof.
  intros Hb Hr.
  pose proof (base_type_passes_its_own_filter _ b r Hr Hb eq_refl) as Hiff.
  pose proof (jsstring_eqb_eq (Stalls.type r) b) as Heq.
  destruct (passesFilter (Some b) r), (jsstring_eqb (Stalls.type r) b);
    try reflexivity.
  - symmetry. apply Heq, Hiff. reflexivity.
  - apply Hiff, Heq. reflexivity.
Qed.

(** X9.  The offered stall types are told apart by the allocator: on a
    collection whose types are base options, the name number for a base
    option as type argument is the name number, without argument, of the
    records whose type is exactly that option; a record carrying the safe
    integer [n], alone in the collection, gives [n + 1] when its type is the
    option and 1 when it is another one. *)
Theorem base_types_are_told_apart_by_the_filter stalls b :
  In b BASE_TYPE_OPTIONS ->
  (forall r, In r stalls -> In (Stalls.type r) BASE_TYPE_OPTIONS) ->
  nextNameNumber (getNextStallNumbers stalls (Some b)) =
  nextNameNumber
    (getNextStallNumbers
       (filter (fun r => jsstring_eqb (Stalls.type r) b) stalls) None) /\
  (forall r n,
     In r stalls -> nameNumber (name r) = Some n -> n <= MAX_SAFE_INTEGER ->
     nextNameNumber (getNextStallNumbers [r] (Some b)) =
     if jsstring_eqb (Stalls.type r) b then Num (n + 1) else Num 1).
Proof.
  intros Hb Hbase. split.
  - rewrite !nextNameNumber_fold, filter_without_type.
    assert (Hfilter : filter (passesFilter (Some b)) stalls
                      = filter (fun r => jsstring_eqb (Stalls.type r) b) stalls);
      [|now rewrite Hfilter].
    apply filter_ext_in. intros r Hr.
    apply base_type_filter_is_equality; auto.
  - intros r n Hr Hn Hsafe.
    rewrite (single_record_name_number r (Some b) n Hn Hsafe).
    now rewrite base_type_filter_is_equality by auto.
Qed.

End TypeOptions.

(** *** Concrete runs of the further properties *)

Lemma more_records_never_lower_the_numbers_witness :
  (forall r, In r [fishStall] -> In r [meatStall; fishStall]) /\
  le_number (nextIdNumber (getNextStallNumbers [fishStall] None))
            (nextIdNumber (getNextStallNumbers [meatStall; fishStall] None)) /\
  le_number (nextNameNumber (getNextStallNumbers [fishStall] None))
            (nextNameNumber (getNextStallNumbers [meatStall; fishStall] None)).
Proof.
  assert (Hincl : forall r, In r [fishStall] -> In r [meatStall; fishStall]).
  { intros r [<-|[]]. right. now left. }
  split; [exact Hincl|].
  exact (more_records_never_lower_the_numbers _ _ None Hincl).
Defined.

Lemma same_records_same_numbers_witness :
  (forall r, In r [fishStall; meatStall; fishStall]
             <-> In r [meatStall; fishStall]) /\
  getNextStallNumbers [fishStall; meatStall; fishStall] (Some (str "fish")) =
  getNextStallNumbers [meatStall; fishStall] (Some (str "fish")).
Proof.
  assert (Hsame : forall r, In r [fishStall; meatStall; fishStall]
                            <-> In r [meatStall; fishStall]).
  { intros r. simpl. tauto. }
  split; [exact Hsame|].
  exact (same_records_same_numbers _ _ _ Hsame).
Defined.

Lemma type_filter_scopes_the_name_number_witness :
  toLowerCase (trim (Stalls.type meatStall)) <> toLowerCase (trim (str "fish"))
  /\
  nextNameNumber
    (getNextStallNumbers ([fishStall] ++ meatStall :: []) (Some (str "fish")))
  = nextNameNumber
      (getNextStallNumbers ([fishStall] ++ []) (Some (str "fish"))).
Proof.
  assert (Hdiff : toLowerCase (trim (Stalls.type meatStall))
                  <> toLowerCase (trim (str "fish"))).
  { vm_compute. intros Heq. discriminate Heq. }
  split; [exact Hdiff|].
  exact (proj1 (type_filter_scopes_the_name_number (str "fish"))
           [fishStall] meatStall [] Hdiff).
Defined.

Lemma numbers_bound_the_counted_suffixes_witness :
  nextIdNumber (getNextStallNumbers [fishStall; meatStall] None) = Num 8 /\
  8 <= MAX_SAFE_INTEGER /\ In meatStall [fishStall; meatStall] /\
  idNumber (id meatStall) = Some 7 /\ 7 < 8.
Proof.
  assert (Hv : nextIdNumber (getNextStallNumbers [fishStall; meatStall] None)
               = Num 8) by reflexivity.
  assert (Hsafe : 8 <= MAX_SAFE_INTEGER) by (vm_compute; discriminate).
  assert (Hin : In meatStall [fishStall; meatStall]) by (right; now left).
  split; [exact Hv|]. split; [exact Hsafe|]. split; [exact Hin|].
  split; [reflexivity|].
  exact (proj1 (proj2 (proj2 (numbers_bound_the_counted_suffixes
                                [fishStall; meatStall] None)))
           8 Hv Hsafe meatStall 7 Hin eq_refl).
Defined.

Lemma allocated_number_is_followed_by_its_successor_witness :
  3 <= MAX_SAFE_INTEGER /\
  nextIdNumber (getNextStallNumbers ([fishStall] ++ []) None) = Num 3 /\
  idNumber (id (mkStall "stall-3" "Stall 4" "Fish")) = Some 3 /\
  nextIdNumber
    (getNextStallNumbers
       ([fishStall] ++ mkStall "stall-3" "Stall 4" "Fish" :: []) None)
  = Num (3 + 1).
Proof.
  assert (Hsafe : 3 <= MAX_SAFE_INTEGER) by (vm_compute; discriminate).
  split; [exact Hsafe|]. split; [reflexivity|]. split; [reflexivity|].
  exact (proj1 (allocated_number_is_followed_by_its_successor
                  [fishStall] (mkStall "stall-3" "Stall 4" "Fish") [] None 3
                  Hsafe) eq_refl eq_refl).
Defined.

Lemma formatStallDisplay_appends_the_vendor_witness :
  vendor (withVendor fishStall "Ana") <> [] /\
  formatStallDisplay (withVendor fishStall "Ana") = str "Stall 3 - Ana" /\
  List.length (formatStallDisplay (withVendor fishStall "Ana")) = 13%nat.
Proof.
  assert (Hv : vendor (withVendor fishStall "Ana") <> []) by discriminate.
  split; [exact Hv|].
  exact (proj2 (formatStallDisplay_appends_the_vendor
                  (withVendor fishStall "Ana")) Hv).
Defined.

Lemma formatStallDisplay_is_ambiguous_witness :
  vendor (mkStall "stall-9" "Stall 3 - Ana" "Fish") = [] /\
  vendor (withVendor fishStall "Ana") <> [] /\
  formatStallDisplay (mkStall "stall-9" "Stall 3 - Ana" "Fish")
  = formatStallDisplay (withVendor fishStall "Ana") /\
  name (mkStall "stall-9" "Stall 3 - Ana" "Fish")
  <> name (withVendor fishStall "Ana").
Proof.
  assert (Hv : vendor (withVendor fishStall "Ana") <> []) by discriminate.
  split; [reflexivity|]. split; [exact Hv|].
  exact (formatStallDisplay_is_ambiguous
           (mkStall "stall-9" "Stall 3 - Ana" "Fish")
           (withVendor fishStall "Ana") eq_refl Hv eq_refl).
Defined.

Lemma base_types_are_told_apart_by_the_filter_witness :
  In (str "Meat") BASE_TYPE_OPTIONS /\
  (forall r, In r [fishStall; meatStall] ->
             In (Stalls.type r) BASE_TYPE_OPTIONS) /\
  nextNameNumber (getNextStallNumbers [fishStall; meatStall] (Some (str "Meat")))
  = nextNameNumber
      (getNextStallNumbers
         (filter (fun r => jsstring_eqb (Stalls.type r) (str "Meat"))
                 [fishStall; meatStall]) None) /\
  nextNameNumber (getNextStallNumbers [fishStall] (Some (str "Meat")))
  = (if jsstring_eqb (Stalls.type fishStall) (str "Meat")
     then Num (3 + 1) else Num 1).
Proof.
  assert (Hmeat : In (str "Meat") BASE_TYPE_OPTIONS)
    by (right; right; now left).
  assert (Hbase : forall r, In r [fishStall; meatStall] ->
                            In (Stalls.type r) BASE_TYPE_OPTIONS).
  { intros r [<-|[<-|[]]]; [right; now left | right; right; now left]. }
  assert (Hsafe : 3 <= MAX_SAFE_INTEGER) by (vm_compute; discriminate).
  pose proof (base_types_are_told_apart_by_the_filter
                [fishStall; meatStall] (str "Meat") Hmeat Hbase)
    as [Hall Hone].
  split; [exact Hmeat|]. split; [exact Hbase|]. split; [exact Hall|].
  exact (Hone fishStall 3 (or_introl eq_refl) eq_refl Hsafe).
Defined.

(** ** Letter case and surrounding whitespace *)

Lemma takeWhile_map {A} (p : A -> bool) (f : A -> A) l :
  (forall x, p (f x) = p x) ->
  takeWhile p (map f l) = map f (takeWhile p l).
Proof.
  intros Hp. induction l as [|x l IH]; simpl; [reflexivity|].
  rewrite Hp. destruct (p x); simpl; [now rewrite IH | reflexivity].
Qed.

Lemma backtrack_map f rest captured s k :
  (forall t, rest (map f t) = mapMatch f (rest t)) ->
  backtrack rest captured (map f s) k
  = mapMatch f (backtrack rest captured s k).
Proof.
  intros Hrest. induction k as [|k IH]; [reflexivity|].
  cbn [backtrack]. rewrite !skipn_map, Hrest.
  destruct (rest (skipn (S k) s)) as [[n caps]|]; cbn [mapMatch].
  - rewrite firstn_map. destruct captured; reflexivity.
  - exact IH.
Qed.

Lemma matchSeq_map f i ns s :
  (forall a c, atomMatches i a (f c) = atomMatches i a c) ->
  matchSeq i ns (map f s) = mapMatch f (matchSeq i ns s).
Proof.
  intros Hf. revert s. induction ns as [|[a|a captured] ns IH]; intros s.
  - now rewrite !matchSeq_nil.
  - rewrite !matchSeq_one. destruct s as [|c s]; [reflexivity|]. cbn [map].
    rewrite Hf, IH. destruct (atomMatches i a c); [|reflexivity].
    destruct (matchSeq i ns s) as [[n caps]|]; reflexivity.
  - rewrite !matchSeq_many1, takeWhile_map, length_map by apply Hf.
    now apply backtrack_map.
Qed.

Lemma exec_unfold re s :
  exec re s =
  match matchSeq (ignoreCase re) (pattern re) s with
  | Some (n, caps) => Some (firstn n s :: caps)
  | None => match s with [] => None | _ :: s' => exec re s' end
  end.
Proof. destruct s; reflexivity. Qed.

Lemma exec_map f re s :
  (forall a c, atomMatches (ignoreCase re) a (f c)
               = atomMatches (ignoreCase re) a c) ->
  exec re (map f s) = option_map (map (map f)) (exec re s).
Proof.
  intros Hf. induction s as [|c s IH].
  - rewrite (exec_unfold re (map f [])), (exec_unfold re []).
    rewrite (matchSeq_map f _ _ [] Hf).
    destruct (matchSeq _ _ []) as [[n caps]|]; cbn [mapMatch option_map map];
      [|reflexivity].
    rewrite !firstn_nil. reflexivity.
  - rewrite (exec_unfold re (map f (c :: s))), (exec_unfold re (c :: s)).
    rewrite (matchSeq_map f _ _ (c :: s) Hf).
    destruct (matchSeq _ _ (c :: s)) as [[n caps]|]; cbn [mapMatch option_map].
    + rewrite firstn_map. reflexivity.
    + cbn [map]. exact IH.
Qed.

Lemma letters_are_no_whiteSpace c :
  (65 <= c <= 122)%N -> isWhiteSpace c = false.
Proof.
  intros Hc. unfold isWhiteSpace.
  repeat match goal with
         | |- context [(?x <=? ?y)%N] =>
             destruct (N.leb_spec x y); try lia; cbn [andb orb]
         | |- context [(?x =? ?y)%N] =>
             destruct (N.eqb_spec x y); try lia; cbn [andb orb]
         end; reflexivity.
Qed.

Lemma letters_are_no_digits c : (65 <= c <= 122)%N -> isDigit c = false.
Proof.
  intros Hc. unfold isDigit.
  destruct (N.leb_spec 48 c), (N.leb_spec c 57); try reflexivity; lia.
Qed.

Lemma latinToLower_cases c :
  latinToLower c = c \/
  ((65 <= c <= 90)%N /\ latinToLower c = (c + 32)%N).
Proof.
  unfold latinToLower.
  destruct (N.leb_spec 65 c), (N.leb_spec c 90); cbn [andb]; auto.
Qed.

Lemma latinToLower_ignored a c :
  atomMatches true a (latinToLower c) = atomMatches true a c.
Proof.
  destruct (latinToLower_cases c) as [->|[Hc ->]]; [reflexivity|].
  destruct a as [p| |]; cbn [atomMatches].
  - assert (latinToUpper (c + 32) = c) as ->.
    { unfold latinToUpper.
      destruct (N.leb_spec 97 (c + 32)), (N.leb_spec (c + 32) 122);
        cbn [andb]; lia. }
    assert (latinToUpper c = c) as ->.
    { unfold latinToUpper.
      destruct (N.leb_spec 97 c), (N.leb_spec c 122); cbn [andb]; lia. }
    unfold isBasicLatin.
    destruct (N.ltb_spec (c + 32) 128), (N.ltb_spec c 128); try reflexivity; lia.
  - rewrite !letters_are_no_whiteSpace by lia. reflexivity.
  - rewrite !letters_are_no_digits by lia. reflexivity.
Qed.

Lemma digits_keep_their_case ds :
  forallb isDigit ds = true -> map latinToLower ds = ds.
Proof.
  induction ds as [|d ds IH]; simpl; [reflexivity|].
  intros Hd. apply andb_true_iff in Hd as [Hd Hds]. rewrite IH by assumption.
  f_equal. destruct (latinToLower_cases d) as [->|[Hc _]]; [reflexivity|].
  rewrite letters_are_no_digits in Hd by lia. discriminate.
Qed.

Lemma nameCapture_map s :
  nameCapture (map latinToLower s)
  = option_map (map latinToLower) (nameCapture s).
Proof.
  unfold nameCapture.
  rewrite (exec_map latinToLower stallNamePattern s)
    by (intros; apply latinToLower_ignored).
  destruct (exec stallNamePattern s) as [arr|]; [|reflexivity].
  cbn [option_map]. f_equal. unfold index.
  change (@nil N) with (map latinToLower []) at 1. apply map_nth.
Qed.

(** The name pattern does not see the case of Basic Latin letters. *)
Lemma nameCapture_ignores_case s :
  nameCapture (map latinToLower s) = nameCapture s.
Proof.
  rewrite nameCapture_map.
  destruct (nameCapture s) as [ds|] eqn:Hc; [|reflexivity].
  cbn [option_map]. f_equal. apply digits_keep_their_case.
  apply nameCapture_Some in Hc as (pre & post & Hocc & _).
  destruct Hocc as (w & sp & _ & _ & _ & _ & _ & Hd). exact Hd.
Qed.

Lemma nameCapture_same_letters s s' :
  map latinToLower s = map latinToLower s' -> nameCapture s = nameCapture s'.
Proof.
  intros Heq.
  rewrite <- (nameCapture_ignores_case s), <- (nameCapture_ignores_case s').
  now rewrite Heq.
Qed.

(** An upper-cased string holds no [s], hence no [stall-]. *)
Lemma latinToUpper_no_s c : latinToUpper c <> 115%N.
Proof.
  unfold latinToUpper.
  destruct (N.leb_spec 97 c), (N.leb_spec c 122); cbn [andb]; lia.
Qed.

Lemma idCapture_upper_case s : idCapture (map latinToUpper s) = None.
Proof.
  apply idCapture_None. intros pre ds post (Heq & _).
  assert (Hin : In 115%N (map latinToUpper s)).
  { rewrite Heq. apply in_or_app. right. now left. }
  apply in_map_iff in Hin as (c & Hc & _).
  now apply latinToUpper_no_s in Hc.
Qed.

(** Whitespace around a string *)

Lemma dropWhile_all {A} (p : A -> bool) ws l :
  forallb p ws = true -> dropWhile p (ws ++ l) = dropWhile p l.
Proof.
  induction ws as [|x ws IH]; simpl; [reflexivity|].
  intros Hw. apply andb_true_iff in Hw as [-> Hw]. now apply IH.
Qed.

Lemma dropWhile_app {A} (p : A -> bool) l l' :
  dropWhile p (l ++ l') =
  if forallb p l then dropWhile p l' else dropWhile p l ++ l'.
Proof.
  induction l as [|x l IH]; simpl; [reflexivity|].
  destruct (p x); simpl; [exact IH | reflexivity].
Qed.

Lemma forallb_rev {A} (p : A -> bool) l : forallb p (rev l) = forallb p l.
Proof.
  induction l as [|x l IH]; simpl; [reflexivity|].
  rewrite forallb_app, IH. simpl. rewrite andb_true_r. apply andb_comm.
Qed.

Lemma trimEnd_whiteSpace l ws :
  forallb isWhiteSpace ws = true -> trimEnd (l ++ ws) = trimEnd l.
Proof.
  intros Hws. unfold trimEnd. rewrite rev_app_distr.
  rewrite dropWhile_all by now rewrite forallb_rev. reflexivity.
Qed.

Lemma dropWhile_all_nil {A} (p : A -> bool) l :
  forallb p l = true -> dropWhile p l = [].
Proof.
  intros Hl. rewrite <- (app_nil_r l), dropWhile_all by assumption.
  reflexivity.
Qed.

(** [trim] does not see whitespace put around its argument. *)
Lemma trim_surrounded before s after :
  forallb isWhiteSpace before = true -> forallb isWhiteSpace after = true ->
  trim (before ++ s ++ after) = trim s.
Proof.
  intros Hb Ha. unfold trim, trimStart.
  rewrite dropWhile_all by assumption. rewrite dropWhile_app.
  destruct (forallb isWhiteSpace s) eqn:Hs.
  - rewrite !dropWhile_all_nil by assumption. reflexivity.
  - now apply trimEnd_whiteSpace.
Qed.

Lemma latinToUpper_cases c :
  latinToUpper c = c \/
  ((97 <= c <= 122)%N /\ latinToUpper c = (c - 32)%N).
Proof.
  unfold latinToUpper.
  destruct (N.leb_spec 97 c), (N.leb_spec c 122); cbn [andb]; auto.
Qed.

Lemma latinToUpper_whiteSpace c :
  isWhiteSpace (latinToUpper c) = isWhiteSpace c.
Proof.
  destruct (latinToUpper_cases c) as [->|[Hc ->]]; [reflexivity|].
  rewrite !letters_are_no_whiteSpace by lia. reflexivity.
Qed.

Lemma latinToLower_upper c : latinToLower (latinToUpper c) = latinToLower c.
Proof.
  destruct (latinToUpper_cases c) as [->|[Hc ->]]; [reflexivity|].
  unfold latinToLower.
  destruct (N.leb_spec 65 (c - 32)), (N.leb_spec (c - 32) 90),
    (N.leb_spec 65 c), (N.leb_spec c 90); cbn [andb]; lia.
Qed.

Lemma latinToUpper_basic c :
  isBasicLatin (latinToUpper c) = isBasicLatin c.
Proof.
  destruct (latinToUpper_cases c) as [->|[Hc ->]]; [reflexivity|].
  unfold isBasicLatin.
  destruct (N.ltb_spec (c - 32) 128), (N.ltb_spec c 128); try reflexivity; lia.
Qed.

Lemma dropWhile_map {A} (p : A -> bool) (f : A -> A) l :
  (forall x, p (f x) = p x) ->
  dropWhile p (map f l) = map f (dropWhile p l).
Proof.
  intros Hp. induction l as [|x l IH]; simpl; [reflexivity|].
  rewrite Hp. destruct (p x); [exact IH | reflexivity].
Qed.

Lemma trim_upper s : trim (map latinToUpper s) = map latinToUpper (trim s).
Proof.
  unfold trim, trimStart, trimEnd.
  rewrite dropWhile_map by apply latinToUpper_whiteSpace.
  rewrite <- map_rev, dropWhile_map by apply latinToUpper_whiteSpace.
  now rewrite map_rev.
Qed.

Lemma forallb_dropWhile {A} (q p : A -> bool) l :
  forallb q l = true -> forallb q (dropWhile p l) = true.
Proof.
  induction l as [|x l IH]; simpl; [reflexivity|].
  intros Hl. destruct (p x); [|exact Hl].
  apply andb_true_iff in Hl as [_ Hl]. now apply IH.
Qed.

Lemma trim_basic s :
  forallb isBasicLatin s = true -> forallb isBasicLatin (trim s) = true.
Proof.
  intros Hs. unfold trim, trimStart, trimEnd.
  rewrite forallb_rev. apply forallb_dropWhile. rewrite forallb_rev.
  now apply forallb_dropWhile.
Qed.

Lemma upper_basic s :
  forallb isBasicLatin s = true ->
  forallb isBasicLatin (map latinToUpper s) = true.
Proof.
  induction s as [|c s IH]; simpl; [reflexivity|].
  intros Hs. apply andb_true_iff in Hs as [Hc Hs].
  now rewrite latinToUpper_basic, Hc, IH.
Qed.

Section CaseAndSpace.
Context `{UnicodeCaseMapping}.

Lemma toLowerCase_upper s :
  forallb isBasicLatin s = true ->
  toLowerCase (map latinToUpper s) = toLowerCase s.
Proof.
  intros Hs. rewrite !toLowerCase_basic_latin.
  - rewrite map_map. apply map_ext, latinToLower_upper.
  - exact Hs.
  - now apply upper_basic.
Qed.

(** X14.  The name number does not see the case of Basic Latin letters in
    the names: two collections whose records agree, one by one, on the type
    and on the name up to letter case give the same [nextNameNumber]. *)
Theorem name_number_ignores_letter_case stalls stalls' type :
  Forall2 (fun r r' =>
             Stalls.type r = Stalls.type r' /\
             map latinToLower (name r) = map latinToLower (name r'))
          stalls stalls' ->
  nextNameNumber (getNextStallNumbers stalls type) =
  nextNameNumber (getNextStallNumbers stalls' type).
Proof.
  intros Hsame. rewrite !nextNameNumber_fold.
  assert (Hcaps : collect (fun r => nameCapture (name r))
                          (filter (passesFilter type) stalls)
                  = collect (fun r => nameCapture (name r))
                            (filter (passesFilter type) stalls'));
    [|now rewrite Hcaps].
  induction Hsame as [|r r' stalls stalls' [Ht Hn] _ IH]; [reflexivity|].
  cbn [filter].
  assert (Hp : passesFilter type r = passesFilter type r').
  { unfold passesFilter. now rewrite Ht. }
  rewrite Hp. destruct (passesFilter type r'); [|exact IH].
  cbn [collect]. rewrite (nameCapture_same_letters _ _ Hn), IH. reflexivity.
Qed.

(** X15.  The id pattern is case-sensitive: ids written without lower-case
    letters are never counted, so on a collection of such ids
    [nextIdNumber] is 1. *)
Theorem upper_case_ids_are_never_counted stalls type :
  (forall r, In r stalls -> exists s, id r = map latinToUpper s) ->
  nextIdNumber (getNextStallNumbers stalls type) = Num 1.
Proof.
  intros Hupper. rewrite nextIdNumber_fold.
  assert (Hnone : collect (fun r => idCapture (id r)) stalls = []);
    [|now rewrite Hnone].
  induction stalls as [|r stalls IH]; [reflexivity|]. cbn [collect].
  destruct (Hupper r (or_introl eq_refl)) as [s ->].
  rewrite idCapture_upper_case. apply IH.
  intros r' Hr'. apply Hupper. now right.
Qed.

(** X16.  The type filter sees neither whitespace around a type nor, for
    Basic Latin types, the case of its letters: surrounding the type
    argument with whitespace, surrounding the types of the records with
    whitespace, or writing a Basic Latin type argument in capitals, leaves
    the result unchanged. *)
Theorem type_filter_ignores_whitespace_and_case stalls type before after :
  forallb isWhiteSpace before = true -> forallb isWhiteSpace after = true ->
  getNextStallNumbers stalls (Some (before ++ type ++ after)) =
    getNextStallNumbers stalls (Some type) /\
  (forall stalls' wanted,
     Forall2 (fun r r' =>
                id r = id r' /\ name r = name r' /\
                exists b a,
                  forallb isWhiteSpace b = true /\
                  forallb isWhiteSpace a = true /\
                  Stalls.type r = b ++ Stalls.type r' ++ a)
             stalls stalls' ->
     getNextStallNumbers stalls wanted = getNextStallNumbers stalls' wanted) /\
  (forallb isBasicLatin type = true ->
   getNextStallNumbers stalls (Some (map latinToUpper type)) =
     getNextStallNumbers stalls (Some type)).
Proof.
  intros Hb Ha. split; [|split].
  - apply passesFilter_same. now rewrite trim_surrounded.
  - intros stalls' wanted Hsame. rewrite !getNextStallNumbers_folds.
    assert (Hcaps :
      collect (fun r => idCapture (id r)) stalls
      = collect (fun r => idCapture (id r)) stalls' /\
      collect (fun r => nameCapture (name r))
              (filter (passesFilter wanted) stalls)
      = collect (fun r => nameCapture (name r))
                (filter (passesFilter wanted) stalls')).
    { induction Hsame
        as [|r r' l l' (Hi & Hn & b & a & Hwb & Hwa & Ht) _ [IHi IHn]];
        [split; reflexivity|].
      split.
      - cbn [collect]. now rewrite Hi, IHi.
      - cbn [filter].
        assert (Hp : passesFilter wanted r = passesFilter wanted r').
        { destruct wanted as [t|]; [|reflexivity].
          unfold passesFilter. now rewrite Ht, trim_surrounded. }
        rewrite Hp. destruct (passesFilter wanted r'); [|exact IHn].
        cbn [collect]. now rewrite Hn, IHn. }
    destruct Hcaps as [Hids Hnames]. now rewrite Hids, Hnames.
  - intros Hlatin. apply passesFilter_same.
    rewrite trim_upper. apply toLowerCase_upper. now apply trim_basic.
Qed.

End CaseAndSpace.

Lemma name_number_ignores_letter_case_witness :
  Forall2 (fun r r' =>
             Stalls.type r = Stalls.type r' /\
             map latinToLower (name r) = map latinToLower (name r'))
          [mkStall "stall-2" "STALL 3" "Fish"] [fishStall] /\
  nextNameNumber
    (getNextStallNumbers [mkStall "stall-2" "STALL 3" "Fish"] None) =
  nextNameNumber (getNextStallNumbers [fishStall] None).
Proof.
  assert (Hsame : Forall2
            (fun r r' =>
               Stalls.type r = Stalls.type r' /\
               map latinToLower (name r) = map latinToLower (name r'))
            [mkStall "stall-2" "STALL 3" "Fish"] [fishStall]).
  { constructor; [split; reflexivity | constructor]. }
  split; [exact Hsame|].
  exact (name_number_ignores_letter_case _ _ None Hsame).
Defined.

Lemma upper_case_ids_are_never_counted_witness :
  (forall r, In r [mkStall "STALL-5" "Stall 3" "Fish"] ->
             exists s, id r = map latinToUpper s) /\
  nextIdNumber
    (getNextStallNumbers [mkStall "STALL-5" "Stall 3" "Fish"] None) = Num 1.
Proof.
  assert (Hupper : forall r, In r [mkStall "STALL-5" "Stall 3" "Fish"] ->
                             exists s, id r = map latinToUpper s).
  { intros r [<-|[]]. exists (str "stall-5"). reflexivity. }
  split; [exact Hupper|].
  exact (upper_case_ids_are_never_counted _ None Hupper).
Defined.

Lemma type_filter_ignores_whitespace_and_case_witness :
  forallb isWhiteSpace (str "  ") = true /\
  forallb isWhiteSpace (str " ") = true /\
  forallb isBasicLatin (str "fish") = true /\
  getNextStallNumbers [fishStall; meatStall]
    (Some (str "  " ++ str "fish" ++ str " ")) =
  getNextStallNumbers [fishStall; meatStall] (Some (str "fish")) /\
  getNextStallNumbers
    [mkStall "stall-2" "Stall 3" "Fish "; mkStall "stall-7" "Stall 1" " Meat"]
    (Some (str "fish")) =
  getNextStallNumbers [fishStall; meatStall] (Some (str "fish")) /\
  getNextStallNumbers [fishStall; meatStall]
    (Some (map latinToUpper (str "fish"))) =
  getNextStallNumbers [fishStall; meatStall] (Some (str "fish")).
Proof.
  pose proof (type_filter_ignores_whitespace_and_case
                [fishStall; meatStall] (str "fish") (str "  ") (str " ")
                eq_refl eq_refl) as (Hspace & _ & Hcase).
  pose proof (type_filter_ignores_whitespace_and_case
                [mkStall "stall-2" "Stall 3" "Fish ";
                 mkStall "stall-7" "Stall 1" " Meat"]
                (str "fish") (str "  ") (str " ")
                eq_refl eq_refl) as (_ & Hrecords & _).
  split; [reflexivity|]. split; [reflexivity|]. split; [reflexivity|].
  split; [exact Hspace|]. split; [|exact (Hcase eq_refl)].
  apply Hrecords. constructor; [|constructor; [|constructor]].
  - split; [reflexivity|]. split; [reflexivity|].
    exists (str ""), (str " "). split; [reflexivity|]. split; reflexivity.
  - split; [reflexivity|]. split; [reflexivity|].
    exists (str " "), (str ""). split; [reflexivity|]. split; reflexivity.
Defined.

End Stalls.

(** ** Properties of the registration form *)

Module RegistrationFormFacts.
Import JS RegistrationForm.

(** ** The sanitizer *)

Lemma forallb_firstn {A} (p : A -> bool) n l :
  forallb p l = true -> forallb p (firstn n l) = true.
Proof.
  revert n. induction l as [|x l IH]; intros [|n]; simpl; auto.
  intros Hl. apply andb_true_iff in Hl as [-> Hl]. now apply IH.
Qed.

Lemma forallb_skipn {A} (p : A -> bool) n l :
  forallb p l = true -> forallb p (skipn n l) = true.
Proof.
  revert n. induction l as [|x l IH]; intros [|n]; simpl; auto.
  intros Hl. apply andb_true_iff in Hl as [_ Hl]. now apply IH.
Qed.

Lemma forallb_filter {A} (p : A -> bool) l : forallb p (filter p l) = true.
Proof.
  induction l as [|x l IH]; simpl; [reflexivity|].
  destruct (p x) eqn:E; simpl; [now rewrite E | assumption].
Qed.

Lemma filter_all {A} (p : A -> bool) l : forallb p l = true -> filter p l = l.
Proof.
  induction l as [|x l IH]; simpl; [reflexivity|].
  intros Hl. apply andb_true_iff in Hl as [-> Hl]. now rewrite IH.
Qed.

Lemma digitsOnly_digits value : forallb isDigit (digitsOnly value) = true.
Proof. apply forallb_firstn, forallb_filter. Qed.

Lemma digitsOnly_length value : (List.length (digitsOnly value) <= 11)%nat.
Proof. apply firstn_le_length. Qed.

(** X10.  The contact sanitizer returns at most 11 code units, all decimal
    digits; it leaves a string unchanged exactly when the string already
    is such, and applying it twice is applying it once. *)
Theorem digitsOnly_keeps_at_most_11_digits value :
  forallb isDigit (digitsOnly value) = true /\
  (List.length (digitsOnly value) <= 11)%nat /\
  (digitsOnly value = value <->
   forallb isDigit value = true /\ (List.length value <= 11)%nat) /\
  digitsOnly (digitsOnly value) = digitsOnly value.
Proof.
  assert (Hfix : forall v, forallb isDigit v = true ->
                           (List.length v <= 11)%nat -> digitsOnly v = v).
  { intros v Hd Hl. unfold digitsOnly, removeNonDigits, sliceFromStart.
    rewrite filter_all by assumption. now apply firstn_all2. }
  split; [apply digitsOnly_digits|]. split; [apply digitsOnly_length|].
  split.
  - split.
    + intros Heq. rewrite <- Heq.
      split; [apply digitsOnly_digits | apply digitsOnly_length].
    + intros [Hd Hl]. now apply Hfix.
  - apply Hfix; [apply digitsOnly_digits | apply digitsOnly_length].
Qed.

(** ** The contact pattern *)

Lemma matchSeq_ones i atoms s n caps :
  matchSeq i (map One atoms) s = Some (n, caps) <->
  n = List.length atoms /\ caps = [] /\
  exists w rest,
    s = w ++ rest /\ Forall2 (fun a c => atomMatches i a c = true) atoms w.
Proof.
  revert s n. induction atoms as [|a atoms IH]; intros s n; cbn [map].
  - rewrite Stalls.matchSeq_nil. split.
    + intros [= <- <-]. repeat split. exists [], s. split; [reflexivity|constructor].
    + intros (-> & -> & _). reflexivity.
  - rewrite Stalls.matchSeq_one. split.
    + destruct s as [|c s]; [discriminate|].
      destruct (atomMatches i a c) eqn:Ec; [|discriminate].
      destruct (matchSeq i (map One atoms) s) as [[m caps0]|] eqn:Em;
        [|discriminate].
      intros [= <- <-]. apply IH in Em as (-> & -> & w & rest & -> & Hw).
      repeat split. exists (c :: w), rest. split; [reflexivity|now constructor].
    + intros (-> & -> & w & rest & -> & Hw).
      inversion Hw as [|a' c atoms' w' Hc Hw']; subst. cbn [app]. rewrite Hc.
      assert (matchSeq i (map One atoms) (w' ++ rest)
              = Some (List.length atoms, [])) as ->; [|reflexivity].
      apply IH. repeat split. eauto.
Qed.

Lemma Forall2_length_eq {A B} (R : A -> B -> Prop) l l' :
  Forall2 R l l' -> List.length l = List.length l'.
Proof. induction 1; simpl; auto. Qed.

Lemma digits_run i k w :
  Forall2 (fun a c => atomMatches i a c = true) (repeat Digit k) w <->
  List.length w = k /\ forallb isDigit w = true.
Proof.
  revert w. induction k as [|k IH]; intros w; cbn [repeat].
  - split.
    + intros Hw. inversion Hw. auto.
    + intros [Hl _]. destruct w; [constructor | discriminate].
  - split.
    + intros Hw. inversion Hw as [|a c l w' Hc Hw']; subst.
      apply IH in Hw' as [Hl Hd]. cbn [atomMatches] in Hc. simpl.
      rewrite Hc, Hd, Hl. auto.
    + intros [Hl Hd]. destruct w as [|c w]; [discriminate|].
      simpl in Hl, Hd. apply andb_true_iff in Hd as [Hc Hd].
      constructor; [exact Hc|]. apply IH. split; [lia | assumption].
Qed.

(** X11.  The submit guard accepts a contact exactly when it is [09]
    followed by nine decimal digits and nothing else. *)
Theorem testContact_accepts_09_and_nine_digits s :
  testContact s = true <->
  exists rest,
    s = str "09" ++ rest /\ List.length rest = 9%nat /\
    forallb isDigit rest = true.
Proof.
  unfold testContact.
  change contactPattern
    with (map One ([Lit 48%N; Lit 57%N] ++ repeat Digit 9)).
  split.
  - destruct (matchSeq false _ s) as [[n caps]|] eqn:Em; [|discriminate].
    intros Hn. apply Nat.eqb_eq in Hn.
    apply matchSeq_ones in Em as (Hlen & _ & w & rest & -> & Hw).
    pose proof (Forall2_length_eq _ _ _ Hw) as Hlw.
    assert (rest = []) as ->.
    { rewrite length_app in Hn. destruct rest; [reflexivity|].
      simpl in Hn. lia. }
    rewrite app_nil_r. cbn [app] in Hw.
    inversion Hw as [|a0 c0 l0 w0 Hc0 Hw0]; subst.
    inversion Hw0 as [|a1 c1 l1 w1 Hc1 Hw1]; subst.
    cbn [atomMatches] in Hc0, Hc1.
    apply N.eqb_eq in Hc0, Hc1. subst.
    apply (digits_run false 9) in Hw1 as [Hl Hd]. exists w1. auto.
  - intros (rest & -> & Hl & Hd).
    assert (matchSeq false
              (map One ([Lit 48%N; Lit 57%N] ++ repeat Digit 9))
              (str "09" ++ rest) = Some (11%nat, [])) as ->.
    { apply matchSeq_ones. repeat split.
      exists (str "09" ++ rest), []. split; [now rewrite app_nil_r|].
      cbn [app]. constructor; [reflexivity|]. constructor; [reflexivity|].
      apply digits_run. auto. }
    rewrite length_app, Hl. reflexivity.
Qed.

Lemma jsstring_eqb_refl s : jsstring_eqb s s = true.
Proof. now apply Stalls.jsstring_eqb_eq. Qed.

Lemma handleChange_contact value prev :
  handleChange (str "contact") value prev (str "contact")
  = Some (digitsOnly value).
Proof.
  unfold handleChange. rewrite jsstring_eqb_refl. cbv zeta.
  unfold setProperty. now rewrite jsstring_eqb_refl.
Qed.

(** X12.  What is typed into the contact field is accepted by the submit
    guard exactly when it holds at least 11 decimal digits of which the
    first two are [0] and [9], whatever other characters surround them. *)
Theorem typed_contact_is_accepted_on_its_first_11_digits value prev :
  contactAccepted (handleChange (str "contact") value prev) = true <->
  (11 <= List.length (removeNonDigits value))%nat /\
  firstn 2 (removeNonDigits value) = str "09".
Proof.
  unfold contactAccepted. rewrite handleChange_contact.
  rewrite testContact_accepts_09_and_nine_digits.
  unfold digitsOnly, sliceFromStart.
  set (ds := removeNonDigits value).
  assert (Hds : forallb isDigit ds = true) by apply forallb_filter.
  split.
  - intros (rest & Heq & Hl & Hd).
    assert (Hlen : List.length (firstn 11 ds) = 11%nat).
    { rewrite Heq, length_app, Hl. reflexivity. }
    rewrite length_firstn in Hlen. split; [lia|].
    apply (f_equal (firstn 2)) in Heq.
    rewrite firstn_firstn in Heq. exact Heq.
  - intros [Hlen H09]. exists (skipn 2 (firstn 11 ds)). split; [|split].
    + rewrite <- (firstn_skipn 2 (firstn 11 ds)) at 1.
      rewrite firstn_firstn. change (Nat.min 2 11) with 2%nat.
      now rewrite H09.
    + rewrite length_skipn, length_firstn. lia.
    + now apply forallb_skipn, forallb_firstn.
Qed.

(** ** The form data under change and reset events *)

(** X13.  Whatever is typed, pasted or reset, in any order, the contact
    held in the form data is a string of at most 11 decimal digits; an
    event on another field leaves the contact as it is. *)
Theorem contact_is_always_at_most_11_digits events :
  (exists contact,
     fold_left step events emptyFormData (str "contact") = Some contact /\
     forallb isDigit contact = true /\
     (List.length contact <= 11)%nat) /\
  (forall formData name_ value,
     name_ <> str "contact" ->
     handleChange name_ value formData (str "contact")
     = formData (str "contact")).
Proof.
  split.
  - assert (Hinv : forall st : object,
              (exists c, st (str "contact") = Some c /\
                         forallb isDigit c = true /\
                         (List.length c <= 11)%nat) ->
              exists c, fold_left step events st (str "contact") = Some c /\
                        forallb isDigit c = true /\
                        (List.length c <= 11)%nat).
    { induction events as [|e events IH]; intros st Hst; [exact Hst|].
      cbn [fold_left]. apply IH. destruct e as [name_ value|]; cbn [step].
      - unfold handleChange.
        destruct (jsstring_eqb name_ (str "contact")) eqn:En.
        + exists (digitsOnly value). unfold setProperty.
          rewrite jsstring_eqb_refl.
          split; [reflexivity|].
          split; [apply digitsOnly_digits | apply digitsOnly_length].
        + unfold setProperty.
          destruct (jsstring_eqb (str "contact") name_) eqn:En'; [|exact Hst].
          apply Stalls.jsstring_eqb_eq in En'. subst name_.
          rewrite jsstring_eqb_refl in En. discriminate.
      - exists []. repeat split. apply Nat.le_0_l. }
    apply Hinv. exists []. repeat split. apply Nat.le_0_l.
  - intros formData name_ value Hname. unfold handleChange.
    destruct (jsstring_eqb name_ (str "contact")) eqn:En.
    + apply Stalls.jsstring_eqb_eq in En. contradiction.
    + unfold setProperty.
      destruct (jsstring_eqb (str "contact") name_) eqn:En'; [|reflexivity].
      apply Stalls.jsstring_eqb_eq in En'. congruence.
Qed.

End RegistrationFormFacts.
